(** * Google suggestion crawler: a model of [google_suggestion_crawler.py]

    The crawler expands a seed keyword breadth first: worker threads take
    [(query, depth)] tasks from a shared queue, ask the autocomplete
    provider for suggestions, keep those that contain the keyword, and
    persist and re-enqueue the ones not seen before.

    The development has four layers.
    - Strings: [str.lower], [str.strip] and the [in] substring test.  A
      [string] is the UTF-8 encoding of a Python [str]; [strip] knows every
      white-space character of Unicode, [lower] the ASCII letters.
    - The sequential methods of [SuggestionWorker]: [__init__],
      [get_suggestions], [save_suggestion], the recording loop.
    - The threads: every worker and the main thread are small state
      machines over one shared [state]; [step] interleaves them from the
      [try] statement of [run] on.
    - The whole of [run]: the start-up before the [try] statement and
      the [KeyboardInterrupt] that no handler catches ([run_step]). *)

From Stdlib Require Import ZArith Ascii String Lia.
From stdpp Require Import base gmap strings list relations.

Set Warnings "-clear-no-such-hyp".

Open Scope string_scope.
Open Scope list_scope.
Open Scope Z_scope.

(** ** Strings *)

Module Str.

(** [str.lower] on one byte: 'A'..'Z' move to 'a'..'z', every other byte
    stays, so that a cased letter outside ASCII is left as it is. *)
Definition lower_char (c : ascii) : ascii :=
  let n := N_of_ascii c in
  if ((65 <=? n) && (n <=? 90))%N then ascii_of_N (n + 32) else c.

Fixpoint lower (s : string) : string :=
  match s with
  | EmptyString => EmptyString
  | String c r => String (lower_char c) (lower r)
  end.

(** [is_prefix k s]: [s.startswith(k)]. *)
Fixpoint is_prefix (k s : string) : bool :=
  match k, s with
  | EmptyString, _ => true
  | String _ _, EmptyString => false
  | String a k', String b s' =>
      if Ascii.eqb a b then is_prefix k' s' else false
  end.

(** [contains k s]: Python's [k in s] on strings. *)
Fixpoint contains (k s : string) : bool :=
  if is_prefix k s then true
  else match s with
       | EmptyString => false
       | String _ s' => contains k s'
       end.












(** [ends_with_slash a]: [a.endswith("/")]. *)
Fixpoint ends_with_slash (a : string) : bool :=
  match a with
  | EmptyString => false
  | String ch EmptyString => Ascii.eqb ch "/"
  | String _ r => ends_with_slash r
  end.

(** [os.path.join a b] (POSIX): an absolute [b] stands alone; otherwise
    the parts are joined with one "/" unless [a] is empty or already ends
    with one. *)
Definition path_join (a b : string) : string :=
  if is_prefix "/" b then b
  else match a with
       | EmptyString => b
       | _ => if ends_with_slash a then a ++ b else a ++ "/" ++ b
       end.

(** A string contains [k] "case-insensitively" when the lowered string
    contains the lowered [k]. *)
Definition icontains (k s : string) : bool := contains (lower k) (lower s).

End Str.

(** ** The crawler object *)

(** The fields of a [SuggestionWorker] that stay fixed after [__init__],
    and the module constant [HAS_TQDM]. *)
Record config := Config {
  main_keyword : string;
  num_workers : Z;
  max_depth : Z;
  output_dir : string;
  output_file : string;
  has_tqdm : bool;
}.

(** [SuggestionWorker.__init__]; [timestamp] is the formatted
    [datetime.now()].  The keyword is lowered for [main_keyword]; the file
    name is built from the argument as given. *)
Definition SuggestionWorker_init
    (keyword output_directory : string) (workers depth : Z)
    (timestamp : string) (tqdm : bool) : config :=
  {| main_keyword := Str.lower keyword;
     num_workers := workers;
     max_depth := depth;
     output_dir := output_directory;
     output_file :=
       Str.path_join output_directory
         ("suggestions_" ++ keyword ++ "_" ++ timestamp ++ ".txt")%string;
     has_tqdm := tqdm |}.


(** A queue entry: [(query, depth)]; the query [None] is the stop signal. *)
Definition task : Type := option string * Z.

(** Lines written to standard output. *)
Inductive line :=
| LStart (keyword : string)
| LMaxDepth (d : Z)
| LSaveTo (file : string)
| LNoTqdm
| LProcessing (d : Z) (q : string)
| LNetworkError (q kind : string)
| LParseError (q msg : string)
| LTaskError (kind : string)
| LInterrupt
| LSummary (n : nat)
| LSaved (file : string).

(** ** The suggestion lookup *)

(** What comes back from the provider for one request.  [requests.get]
    either raises a [RequestException] or yields a response with a status
    code; [ET.fromstring] either raises [ParseError] or yields a tree, of
    which the code reads the [data] attribute of every [suggestion]
    element in document order ([None] when the attribute is absent). *)
Inductive body :=
| NotXml (msg : string)
| Xml (data : list (option string)).

Inductive reply :=
| RequestFails (kind : string)
| Response (status : Z) (b : body).

(** Exceptions that can leave [get_suggestions]. *)
Inductive exn :=
| AttributeError.

Inductive outcome (A : Type) :=
| Returns (a : A)
| Raises (e : exn).
Arguments Returns {A} a.
Arguments Raises {A} e.

(** [response.raise_for_status()] raises [HTTPError] for 4xx and 5xx. *)
Definition raise_for_status (status : Z) : bool :=
  (400 <=? status) && (status <? 600).

(** The list comprehension of line 90.  [s.lower()] on [None] raises
    [AttributeError], whatever the other elements are. *)
Fixpoint keep_matching (kw : string) (data : list (option string))
  : outcome (list string) :=
  match data with
  | [] => Returns []
  | None :: _ => Raises AttributeError
  | Some s :: rest =>
      match keep_matching kw rest with
      | Returns l =>
          Returns (if Str.contains kw (Str.lower s) then s :: l else l)
      | Raises e => Raises e
      end
  end.

(** [get_suggestions]: the result together with the lines it prints. *)
Definition get_suggestions (c : config) (query : string) (r : reply)
  : outcome (list string) * list line :=
  match r with
  | RequestFails kind => (Returns [], [LNetworkError query kind])
  | Response status b =>
      if raise_for_status status
      then (Returns [], [LNetworkError query "HTTPError"])
      else match b with
           | NotXml msg => (Returns [], [LParseError query msg])
           | Xml data => (keep_matching (main_keyword c) data, [])
           end
  end.

Definition exn_name (e : exn) : string :=
  match e with AttributeError => "AttributeError" end.

(** ** Shared state and threads *)

(** Where a worker thread stands in [worker] (line numbers of the source). *)
Inductive wstate :=
| WIdle                                  (* 108: about to test shutdown_flag *)
| WGet                                   (* 110: inside queue.get *)
| WTimedOut                              (* 139: Empty was raised *)
| WGot (t : task)                        (* 113: holds a dequeued task *)
| WWindow (q : string) (d : Z)           (* 124: passed both tests *)
| WFetch (q : string) (d : Z)            (* 126: inside get_suggestions *)
| WRecord (q : string) (d : Z) (suggestions : list string) (* 129 *)
| WAck (q : string) (d : Z)              (* 136-137 *)
| WStopped.

(** Where the main thread stands in [run] and [cleanup]. *)
Inductive mstate :=
| MJoin                                  (* 210: queue.join() *)
| MPutStop (k : nat)                     (* 214-215: k stop signals left *)
| MJoinThreads                           (* 216-217 *)
| MCleanup                               (* 220-221, 156: interrupted *)
| MDrain                                 (* 159-164 *)
| MCleanupStop (k : nat)                 (* 167-171 *)
| MJoinThreads2                          (* 223-224 *)
| MFinally                               (* 225-234 *)
| MDone.

(** The mutable fields of the object, the queue's counter of unfinished
    tasks, the output file and terminal, and the threads.  [fetched],
    [replies] and [children] are ghost logs: the calls of
    [get_suggestions], what the provider answered, and the tasks put at
    line 134.  [sink] holds the strings that [save_suggestion] appended
    to the output file after its header, one entry for each call. *)
Record state := State {
  queue : list task;
  unfinished : nat;
  results : gset string;
  processed_queries : gset string;
  shutdown_flag : bool;
  sink : list string;
  stdout : list line;
  fetched : list (string * Z);
  replies : list (string * Z * reply);
  children : list (string * Z);
  workers : list wstate;
  main_thread : mstate;
}.

Definition set_queue (v : list task) (s : state) : state :=
  State v (unfinished s) (results s) (processed_queries s) (shutdown_flag s)
    (sink s) (stdout s) (fetched s) (replies s) (children s) (workers s)
    (main_thread s).
Definition set_unfinished (v : nat) (s : state) : state :=
  State (queue s) v (results s) (processed_queries s) (shutdown_flag s)
    (sink s) (stdout s) (fetched s) (replies s) (children s) (workers s)
    (main_thread s).
Definition set_results (v : gset string) (s : state) : state :=
  State (queue s) (unfinished s) v (processed_queries s) (shutdown_flag s)
    (sink s) (stdout s) (fetched s) (replies s) (children s) (workers s)
    (main_thread s).
Definition set_processed (v : gset string) (s : state) : state :=
  State (queue s) (unfinished s) (results s) v (shutdown_flag s)
    (sink s) (stdout s) (fetched s) (replies s) (children s) (workers s)
    (main_thread s).
Definition set_flag (v : bool) (s : state) : state :=
  State (queue s) (unfinished s) (results s) (processed_queries s) v
    (sink s) (stdout s) (fetched s) (replies s) (children s) (workers s)
    (main_thread s).
Definition set_sink (v : list string) (s : state) : state :=
  State (queue s) (unfinished s) (results s) (processed_queries s)
    (shutdown_flag s) v (stdout s) (fetched s) (replies s) (children s)
    (workers s) (main_thread s).
Definition set_stdout (v : list line) (s : state) : state :=
  State (queue s) (unfinished s) (results s) (processed_queries s)
    (shutdown_flag s) (sink s) v (fetched s) (replies s) (children s)
    (workers s) (main_thread s).
Definition set_fetched (v : list (string * Z)) (s : state) : state :=
  State (queue s) (unfinished s) (results s) (processed_queries s)
    (shutdown_flag s) (sink s) (stdout s) v (replies s) (children s)
    (workers s) (main_thread s).
Definition set_replies (v : list (string * Z * reply)) (s : state) : state :=
  State (queue s) (unfinished s) (results s) (processed_queries s)
    (shutdown_flag s) (sink s) (stdout s) (fetched s) v (children s)
    (workers s) (main_thread s).
Definition set_children (v : list (string * Z)) (s : state) : state :=
  State (queue s) (unfinished s) (results s) (processed_queries s)
    (shutdown_flag s) (sink s) (stdout s) (fetched s) (replies s) v
    (workers s) (main_thread s).
Definition set_workers (v : list wstate) (s : state) : state :=
  State (queue s) (unfinished s) (results s) (processed_queries s)
    (shutdown_flag s) (sink s) (stdout s) (fetched s) (replies s)
    (children s) v (main_thread s).
Definition set_main (v : mstate) (s : state) : state :=
  State (queue s) (unfinished s) (results s) (processed_queries s)
    (shutdown_flag s) (sink s) (stdout s) (fetched s) (replies s)
    (children s) (workers s) v.

Definition set_worker (i : nat) (w : wstate) (s : state) : state :=
  set_workers (<[i:=w]> (workers s)) s.

(** *** Queue operations *)

(** [queue.put]: append and count one more unfinished task. *)
Definition put (t : task) (s : state) : state :=
  set_unfinished (S (unfinished s)) (set_queue (queue s ++ [t]) s).

(** [queue.task_done]: one unfinished task less; with none left Python
    raises [ValueError], here [None]. *)
Definition task_done (s : state) : option state :=
  match unfinished s with
  | O => None
  | S n => Some (set_unfinished n s)
  end.

Definition print (l : line) (s : state) : state :=
  set_stdout (stdout s ++ [l]) s.

Definition prints (ls : list line) (s : state) : state :=
  set_stdout (stdout s ++ ls) s.

(** *** Recording (lines 129-134) *)

(** [save_suggestion]: write the string and a line feed at the end of the
    output file.  [sink] keeps the string written, one entry for each
    call; a string that itself holds a line feed takes several lines of
    the file, so [sink] is the list of strings written and not the list
    of the file's lines.  The progress bar is not modelled. *)
Definition save_suggestion (x : string) (s : state) : state :=
  set_sink (sink s ++ [x]) s.

(** One turn of the [for] loop. *)
Definition record_one (d : Z) (s : state) (x : string) : state :=
  if bool_decide (x ∈ results s) then s
  else
    let s1 := set_results ({[x]} ∪ results s) s in
    let s2 := save_suggestion x s1 in
    set_children (children s2 ++ [(x, d + 1)]) (put (Some x, d + 1) s2).

(** The whole [with self.lock] block.  The lock makes it atomic for the
    other recorders, and nothing outside the block reads [results] or the
    file; its puts are seen only by [queue.get], which cannot tell whether
    the later puts of the block have happened yet.  The block is therefore
    one step of the model. *)
Definition record (d : Z) (l : list string) (s : state) : state :=
  foldl (record_one d) s l.

(** *** One step of a worker thread *)

Definition queue_empty (s : state) : bool :=
  match queue s with [] => true | _ => false end.

(** [run] has returned: the process is over. *)
Definition exited (s : state) : bool :=
  match main_thread s with MDone => true | _ => false end.

(** [worker_step c i r s]: thread [i] runs to its next point of
    interaction.  [r] is what the provider answers; it is read only by the
    step that returns from [get_suggestions].  No thread runs once the
    main thread has returned (the workers are daemon threads). *)
Definition worker_step (c : config) (i : nat) (r : reply) (s : state)
  : option state :=
  if exited s then None
  else
    match workers s !! i with
    | None => None
    | Some WIdle =>
        Some (set_worker i (if shutdown_flag s then WStopped else WGet) s)
    | Some WGet =>
        match queue s with
        | [] => Some (set_worker i WTimedOut s)
        | t :: rest => Some (set_worker i (WGot t) (set_queue rest s))
        end
    | Some WTimedOut =>
        Some (set_worker i
                (if queue_empty s || shutdown_flag s then WStopped else WIdle)
                s)
    | Some (WGot (None, _)) => set_worker i WStopped <$> task_done s
    | Some (WGot (Some q, d)) =>
        if bool_decide (q ∈ processed_queries s)
        then set_worker i WIdle <$> task_done s
        else if max_depth c <=? d
             then set_worker i WIdle <$> task_done s
             else Some (set_worker i (WWindow q d) s)
    | Some (WWindow q d) =>
        Some (set_worker i (WFetch q d)
                (set_fetched (fetched s ++ [(q, d)])
                   (set_processed ({[q]} ∪ processed_queries s)
                      (print (LProcessing d q) s))))
    | Some (WFetch q d) =>
        let s1 :=
          set_replies (replies s ++ [(q, d, r)])
            (prints (get_suggestions c q r).2 s) in
        match (get_suggestions c q r).1 with
        | Returns l => Some (set_worker i (WRecord q d l) s1)
        | Raises e =>
            set_worker i WIdle <$> task_done (print (LTaskError (exn_name e)) s1)
        end
    | Some (WRecord q d l) => Some (set_worker i (WAck q d) (record d l s))
    | Some (WAck q d) => set_worker i WIdle <$> task_done s
    | Some WStopped => None
    end.

(** *** One step of the main thread *)

Definition stop_signal : task := (None, 0).

(** [main_step c interrupt s]: one step of the main thread from the [try]
    statement on.  With [interrupt] a [KeyboardInterrupt] arrives while
    the main thread is inside the [try] block, and the handler of line 219
    takes over.  What an interrupt does outside the [try] block (before
    it, or a second one during [cleanup]) is said by [run_step] below,
    which calls [main_step] with an interrupt only inside the block. *)
Definition main_step (c : config) (interrupt : bool) (s : state)
  : option state :=
  let n := Z.to_nat (num_workers c) in
  let in_try (normal : option state) :=
    if interrupt then Some (set_main MCleanup (print LInterrupt s))
    else normal in
  match main_thread s with
  | MJoin =>
      in_try (match unfinished s with
              | O => Some (set_main (MPutStop n) s)
              | S _ => None
              end)
  | MPutStop (S k) => in_try (Some (set_main (MPutStop k) (put stop_signal s)))
  | MPutStop O => in_try (Some (set_main MJoinThreads s))
  | MJoinThreads => in_try (Some (set_main MFinally s))
  | MCleanup => Some (set_main MDrain (set_flag true s))
  | MDrain =>
      match queue s with
      | [] => Some (set_main (MCleanupStop n) s)
      | _ :: rest => set_main MDrain <$> task_done (set_queue rest s)
      end
  | MCleanupStop (S k) => Some (set_main (MCleanupStop k) (put stop_signal s))
  | MCleanupStop O => Some (set_main MJoinThreads2 s)
  | MJoinThreads2 => Some (set_main MFinally s)
  | MFinally =>
      Some (set_main MDone
              (prints [LSummary (size (results s)); LSaved (output_file c)] s))
  | MDone => None
  end.

(** *** The interleaving *)

Inductive label :=
| Worker (i : nat) (r : reply)
| Main (interrupt : bool).

Definition step_fn (c : config) (l : label) (s : state) : option state :=
  match l with
  | Worker i r => worker_step c i r s
  | Main b => main_step c b s
  end.

Definition step (c : config) (s s' : state) : Prop :=
  ∃ l, step_fn c l s = Some s'.

(** Running a schedule. *)
Fixpoint exec (c : config) (ls : list label) (s : state) : option state :=
  match ls with
  | [] => Some s
  | l :: ls' =>
      match step_fn c l s with
      | Some s' => exec c ls' s'
      | None => None
      end
  end.

(** The state when [run] enters its [try] block: the banner is printed,
    the file holds its header, the seed is queued at depth 0 and the
    threads are started.  [run_step] below starts at the first line of
    [run]; every state it reaches from line 209 on is reachable from
    [initial] ([guarded_reachable]), and [initial] is the state in which
    the start-up ends when no worker has moved yet
    ([startup_reaches_initial]). *)
Definition initial (c : config) : state :=
  {| queue := [(Some (main_keyword c), 0)];
     unfinished := 1;
     results := ∅;
     processed_queries := ∅;
     shutdown_flag := false;
     sink := [];
     stdout := [LStart (main_keyword c); LMaxDepth (max_depth c);
                LSaveTo (output_file c)]
               ++ (if has_tqdm c then [] else [LNoTqdm]);
     fetched := [];
     replies := [];
     children := [];
     workers := replicate (Z.to_nat (num_workers c)) WIdle;
     main_thread := MJoin |}.

Definition reachable (c : config) (s : state) : Prop :=
  rtc (step c) (initial c) s.

(** ** Invariants and predicates *)

(** *** The recording loop *)

(** The candidates of [l] that the loop treats as new, in order: those not
    in [seen] and not met earlier in [l]. *)
Fixpoint fresh (seen : gset string) (l : list string) : list string :=
  match l with
  | [] => []
  | x :: l' =>
      if bool_decide (x ∈ seen) then fresh seen l'
      else x :: fresh ({[x]} ∪ seen) l'
  end.

(** The file holds no line twice, its lines are the strings of the child
    tasks, and [results] is the set of its lines. *)
Definition sink_inv (s : state) : Prop :=
  NoDup (sink s) ∧ (children s).*1 = sink s ∧
  list_to_set (sink s) = results s.

(** The list a lookup hands to the recording loop. *)
Definition returned (c : config) (q : string) (r : reply) : list string :=
  match (get_suggestions c q r).1 with
  | Returns l => l
  | Raises _ => []
  end.

(** *** Counting over the workers *)

Definition wsum (f : wstate → nat) (ws : list wstate) : nat :=
  sum_list_with f ws.

(** A worker that holds a dequeued task it has not acknowledged yet. *)
Definition holding (w : wstate) : nat :=
  match w with
  | WGot _ | WWindow _ _ | WFetch _ _ | WRecord _ _ _ | WAck _ _ => 1
  | WIdle | WGet | WTimedOut | WStopped => 0
  end.

(** The queue's counter of unfinished tasks counts the queued tasks and
    the tasks held by workers: [task_done] never fails. *)
Definition accounting (s : state) : Prop :=
  unfinished s = (length (queue s) + wsum holding (workers s))%nat.

(** *** Depth bound and keyword filter *)

(** The test of line 90 on one candidate. *)
Definition matches (c : config) (x : string) : Prop :=
  Str.contains (main_keyword c) (Str.lower x) = true.

(** What a worker's position guarantees about its task. *)
Definition worker_ok (c : config) (w : wstate) : Prop :=
  match w with
  | WWindow _ d => d < max_depth c
  | WRecord _ _ l => ∀ x, x ∈ l → matches c x
  | _ => True
  end.

Definition filter_inv (c : config) (s : state) : Prop :=
  Forall (worker_ok c) (workers s) ∧
  (∀ q d, (q, d) ∈ fetched s → d < max_depth c) ∧
  (∀ x, x ∈ sink s → matches c x).

(** Positions a worker can be in when no task ever passes the depth test,
    with the depth of the task it holds. *)
Definition shallow (w : wstate) : Prop :=
  match w with
  | WGot t => t.2 = 0
  | WWindow _ _ | WFetch _ _ | WRecord _ _ _ | WAck _ _ => False
  | WIdle | WGet | WTimedOut | WStopped => True
  end.

(** With a depth limit of 0 or less nothing is ever looked up. *)
Definition zero_inv (s : state) : Prop :=
  Forall (λ t : task, t.2 = 0) (queue s) ∧
  Forall shallow (workers s) ∧
  fetched s = [] ∧ replies s = [] ∧ sink s = [] ∧ children s = [] ∧
  results s = ∅ ∧ processed_queries s = ∅.

(** *** Claiming a query *)

(** [task_is q t] is 1 when task [t] asks for query [q]. *)
Definition task_is (q : string) (t : task) : nat :=
  if decide (t.1 = Some q) then 1 else 0.

Definition qcount (q : string) (l : list task) : nat :=
  sum_list_with (task_is q) l.

(** A worker that holds a task for [q] and has not yet marked [q] as
    processed. *)
Definition wants (q : string) (w : wstate) : nat :=
  match w with
  | WGot t => task_is q t
  | WWindow q' d => task_is q (Some q', d)
  | _ => 0
  end.

(** A worker past line 125. *)
Definition busy (w : wstate) : nat :=
  match w with
  | WFetch _ _ | WRecord _ _ _ | WAck _ _ => 1
  | _ => 0
  end.

(** The number of pending requests for [q]: queued tasks and tasks in the
    hands of workers that have not claimed them yet. *)
Definition demand (q : string) (s : state) : nat :=
  (qcount q (queue s) + wsum (wants q) (workers s))%nat.

(** Why the unlocked test of line 113 and insertion of line 125 cannot
    race: a query that is not marked is requested by at most one pending
    task ([claim_unique]).  Tasks come from [results], where the recording
    block admits every string once, or are the seed ([claim_origin]); and
    the seed is marked before anything is recorded ([claim_seed]), so a
    suggestion equal to the seed arrives on the queue already marked. *)
Record claim_inv (c : config) (s : state) : Prop := ClaimInv {
  claim_unique :
    ∀ q, q ∉ processed_queries s → (demand q s ≤ 1)%nat;
  claim_window :
    ∀ i q d, workers s !! i = Some (WWindow q d) → q ∉ processed_queries s;
  claim_origin :
    ∀ q, (0 < demand q s)%nat → q = main_keyword c ∨ q ∈ results s;
  claim_seed :
    results s ≠ ∅ ∨ (0 < wsum busy (workers s))%nat →
    main_keyword c ∈ processed_queries s;
  claim_fetched :
    NoDup (fetched s).*1 ∧
    ∀ q, q ∈ (fetched s).*1 → q ∈ processed_queries s;
}.

(** *** Lookup failures *)

(** The failures the lookup handles itself: [requests.get] raises, the
    status is 4xx or 5xx, or the payload is not XML. *)
Inductive lookup_failure : reply → Prop :=
| transport_failure kind : lookup_failure (RequestFails kind)
| status_failure status b :
    raise_for_status status = true → lookup_failure (Response status b)
| parse_failure status msg :
    raise_for_status status = false →
    lookup_failure (Response status (NotXml msg)).

(** The error line names the query. *)
Definition reports (q : string) (l : line) : Prop :=
  (∃ kind, l = LNetworkError q kind) ∨ (∃ msg, l = LParseError q msg).

(** *** The end of [run] *)

(** The last two lines [run] prints: the number of results and the file. *)
Definition ends_with_summary (c : config) (s : state) : Prop :=
  ∃ pre, stdout s = pre ++ [LSummary (size (results s)); LSaved (output_file c)].

(** The main thread is inside the [try] block of [run]. *)
Definition in_try (s : state) : bool :=
  match main_thread s with
  | MJoin | MPutStop _ | MJoinThreads => true
  | _ => false
  end.


(** *** The case of the keyword *)

(** A line with the name of the output file blanked. *)
Definition anonymise (l : line) : line :=
  match l with
  | LSaveTo _ => LSaveTo ""
  | LSaved _ => LSaved ""
  | _ => l
  end.

(** A state with the file name blanked in what was printed. *)
Definition hide_file (s : state) : state :=
  set_stdout (anonymise <$> stdout s) s.

(** The configuration with another file name. *)
Definition with_output_file (f : string) (c : config) : config :=
  Config (main_keyword c) (num_workers c) (max_depth c) (output_dir c) f
    (has_tqdm c).

(** Two outcomes of a run agree up to the file name. *)
Definition same_crawl (o o' : option state) : Prop :=
  hide_file <$> o = hide_file <$> o'.

(** ** Concrete runs

    The seed "Rust" with two workers, and schedules that bring the
    threads to the positions the theorems speak about. *)

Definition rust_config (depth : Z) : config :=
  SuggestionWorker_init "Rust" "results" 2 depth "20240101_120000" true.

(** An answer with three candidates, one of them twice. *)
Definition rust_reply : reply :=
  Response 200
    (Xml [Some "rust lang"; Some "go lang"; Some "rustacean"; Some "rust lang"]).

Definition three_candidates : reply :=
  Response 200 (Xml [Some "rust lang"; Some "go lang"; Some "rustacean"]).

Definition no_reply : reply := RequestFails "ConnectionError".

(** Worker [i] moves [n] times without receiving an answer. *)
Definition moves (i n : nat) : list label := replicate n (Worker i no_reply).

(** Worker 0: test the flag, dequeue the seed, pass the tests, mark the
    query, receive [rust_reply], record, acknowledge. *)
Definition seed_round : list label :=
  moves 0 4 ++ [Worker 0%nat rust_reply] ++ moves 0 2.

(** With depth 0 the seed is dropped, the queue drains and the main
    thread puts two stop signals; worker 1 takes the first one. *)
Definition drained_round : list label :=
  moves 0 4 ++ [Main false; Main false; Main false] ++ moves 1 2.

(** The seed is dropped and the main thread runs to the end of [run]. *)
Definition zero_depth_run : list label :=
  moves 0 4 ++ replicate 6 (Main false).

(** Worker 0 has recorded the answers to the seed and worker 1 is inside
    the lookup of "rust lang". *)
Definition busy_round : list label :=
  seed_round ++ moves 1 4.



(** ** Further invariants *)

(** A task or a worker that can no longer lead to a lookup: only stop
    signals are queued or held, and no worker is past the tests. *)
Definition quiet_worker (w : wstate) : Prop :=
  match w with
  | WGot t => t.1 = None
  | WWindow _ _ | WFetch _ _ | WRecord _ _ _ | WAck _ _ => False
  | WIdle | WGet | WTimedOut | WStopped => True
  end.

Definition quiet (s : state) : Prop :=
  Forall (λ t : task, t.1 = None) (queue s) ∧ Forall quiet_worker (workers s).

(** What a run leaves untouched once it is quiet. *)
Definition same_output (s s' : state) : Prop :=
  sink s' = sink s ∧ results s' = results s ∧ fetched s' = fetched s ∧
  processed_queries s' = processed_queries s.

(** What only grows along a run. *)
Definition grows (s s' : state) : Prop :=
  sink s `prefix_of` sink s' ∧
  fetched s `prefix_of` fetched s' ∧
  stdout s `prefix_of` stdout s' ∧
  results s ⊆ results s' ∧
  processed_queries s ⊆ processed_queries s' ∧
  (shutdown_flag s = true → shutdown_flag s' = true) ∧
  length (workers s') = length (workers s).

(** What the main thread's work on the queue leaves alone. *)
Definition queue_work (s s' : state) : Prop :=
  sink s' = sink s ∧ results s' = results s ∧ workers s' = workers s ∧
  processed_queries s' = processed_queries s ∧ fetched s' = fetched s ∧
  stdout s' = stdout s.

(** The depth a worker's position allows for its task. *)
Definition depth_worker (c : config) (w : wstate) : Prop :=
  match w with
  | WGot t => 0 ≤ t.2 ≤ Z.max 0 (max_depth c)
  | WWindow _ d | WFetch _ d | WRecord _ d _ | WAck _ d => 0 ≤ d < max_depth c
  | WIdle | WGet | WTimedOut | WStopped => True
  end.

Definition depth_inv (c : config) (s : state) : Prop :=
  Forall (λ t : task, 0 ≤ t.2 ≤ Z.max 0 (max_depth c)) (queue s) ∧
  Forall (depth_worker c) (workers s) ∧
  (∀ x d, (x, d) ∈ children s → 1 ≤ d ≤ max_depth c) ∧
  (∀ q d, (q, d) ∈ fetched s → 0 ≤ d < max_depth c).

(** The marked queries are the queries of the lookups. *)
Definition marked_inv (s : state) : Prop :=
  processed_queries s = list_to_set (fetched s).*1.

(** Where a worker's task or list of suggestions comes from, given the
    lookups [F] made and the answers [R] received so far. *)
Definition sourced (c : config) (F : list (string * Z))
    (R : list (string * Z * reply)) (w : wstate) : Prop :=
  match w with
  | WFetch q d => (q, d) ∈ F
  | WRecord q d l => ∃ r, (q, d, r) ∈ R ∧ (get_suggestions c q r).1 = Returns l
  | _ => True
  end.

(** Every answer belongs to a lookup, and every child task to a
    suggestion of an answer, one level below the task that was looked up. *)
Definition source_inv (c : config) (s : state) : Prop :=
  Forall (sourced c (fetched s) (replies s)) (workers s) ∧
  (∀ q d r, (q, d, r) ∈ replies s → (q, d) ∈ fetched s) ∧
  (∀ x d', (x, d') ∈ children s →
     ∃ q d r l, (q, d, r) ∈ replies s ∧
                (get_suggestions c q r).1 = Returns l ∧
                x ∈ l ∧ d' = d + 1).

(** An upper bound on the steps a worker still takes once the shutdown
    flag is set: it finishes the task it holds, or the one it is about to
    take from the queue, and stops at the next test of the flag. *)
Definition rank (w : wstate) : nat :=
  match w with
  | WStopped => 0
  | WIdle | WTimedOut => 1
  | WAck _ _ => 2
  | WRecord _ _ _ => 3
  | WFetch _ _ => 4
  | WWindow _ _ => 5
  | WGot _ => 6
  | WGet => 7
  end.

(** A schedule in which only workers move, and every lookup that returns
    is answered with [r]. *)
Definition workers_only (r : reply) (ls : list label) : Prop :=
  Forall (λ l, ∃ i, l = Worker i r) ls.

(** The main thread has entered the loops of [cleanup]. *)
Definition past_cleanup (s : state) : bool :=
  match main_thread s with
  | MDrain | MCleanupStop _ | MJoinThreads2 | MFinally | MDone => true
  | MJoin | MPutStop _ | MJoinThreads | MCleanup => false
  end.

(** The flag is set by [cleanup] only. *)
Definition flag_inv (s : state) : Prop :=
  shutdown_flag s = true → past_cleanup s = true.

(** The state in which the workers find the stop signals of a run that
    ended by itself: [m] signals are queued and counted, the flag is
    clear, the main thread waits for the workers and no worker holds a
    task. *)
Definition signalled (m : nat) (s : state) : Prop :=
  main_thread s = MJoinThreads ∧ shutdown_flag s = false ∧
  queue s = replicate m stop_signal ∧ unfinished s = m ∧
  ∀ i w, workers s !! i = Some w → holding w = 0%nat.

(** *** A provider and two schedules *)

(** Every answer the run received is the provider's answer to the query. *)
Definition answered_by (provider : string → reply) (s : state) : Prop :=
  Forall (λ a : string * Z * reply, a.2 = provider a.1.1) (replies s).

(** A run that ended by itself: [run] has returned and the flag is clear. *)
Definition completed (s : state) : Prop :=
  exited s = true ∧ shutdown_flag s = false.

(** A provider under which "kx" is suggested for "k1" (one level below
    the seed) and for "k2" (two levels below). *)
Definition fork_provider (q : string) : reply :=
  Response 200 (Xml (Some <$>
    (if String.eqb q "k" then ["k1"; "ky"]
     else if String.eqb q "k1" then ["kx"]
     else if String.eqb q "ky" then ["k2"]
     else if String.eqb q "k2" then ["kx"]
     else if String.eqb q "kx" then ["kz"]
     else []))).

Definition fork_config : config :=
  SuggestionWorker_init "k" "results" 2 3 "20240101_120000" true.

(** Worker [i] takes the task for [q] through the whole loop body. *)
Definition handle (i : nat) (q : string) : list label :=
  moves i 4 ++ [Worker i (fork_provider q)] ++ moves i 2.

(** Worker [i] takes a task that is dropped or skipped. *)
Definition pass (i : nat) : list label := moves i 3.

(** One worker does everything, in the order of the queue. *)
Definition in_turn : list label :=
  handle 0 "k" ++ handle 0 "k1" ++ handle 0 "ky" ++ handle 0 "kx"
    ++ handle 0 "k2" ++ pass 0 ++ replicate 6 (Main false).

(** Worker 0 has the answer for "k1" in hand but is late to the lock:
    worker 1 handles "ky" and "k2" first. *)
Definition overtaken : list label :=
  handle 0 "k" ++ moves 0 4 ++ [Worker 0%nat (fork_provider "k1")]
    ++ handle 1 "ky" ++ handle 1 "k2" ++ moves 0 2 ++ pass 0
    ++ replicate 6 (Main false).

(** Every lookup is for the seed or for a string in [results]. *)
Definition lookup_inv (c : config) (s : state) : Prop :=
  ∀ q d, (q, d) ∈ fetched s → q = main_keyword c ∨ q ∈ results s.

(** ** The whole of [run]

    [initial] is the state at the [try] statement of line 209.  This
    layer adds what [run] does before it (the banner, the header of the
    file, the seed, the progress bar and the start of the threads, each of
    which runs as soon as it is started) and the [KeyboardInterrupt] that
    arrives where no handler is in force. *)

(** Where [run] stands.  From [PGuarded] on, [main_thread] tells where
    the main thread is. *)
Inductive phase :=
| PBanner                                (* 175-177 *)
| PHeader                                (* 183-184 *)
| PSeed                                  (* 187 *)
| PProgress                              (* 190-194 *)
| PThreads (started : nat)               (* 201-207 *)
| PGuarded                               (* 209-234 *)
| PAborted.                              (* KeyboardInterrupt left run *)

Record run_state := RunState {
  phase_of : phase;
  state_of : state;
}.

(** The object as [__init__] leaves it; no thread exists yet. *)
Definition constructed : state :=
  {| queue := [];
     unfinished := 0;
     results := ∅;
     processed_queries := ∅;
     shutdown_flag := false;
     sink := [];
     stdout := [];
     fetched := [];
     replies := [];
     children := [];
     workers := [];
     main_thread := MJoin |}.

Definition start : run_state := RunState PBanner constructed.

Definition banner (c : config) : list line :=
  [LStart (main_keyword c); LMaxDepth (max_depth c); LSaveTo (output_file c)].

(** [Thread(target=self.worker).start()]: one more worker, at the top of
    its loop. *)
Definition start_thread (s : state) : state :=
  set_workers (workers s ++ [WIdle]) s.

(** One step of the main thread before the [try] statement.  Opening the
    output file is taken to succeed. *)
Definition startup_step (c : config) (p : phase) (s : state)
  : option run_state :=
  match p with
  | PBanner => Some (RunState PHeader (prints (banner c) s))
  | PHeader => Some (RunState PSeed s)
  | PSeed => Some (RunState PProgress (put (Some (main_keyword c), 0) s))
  | PProgress =>
      Some (RunState (PThreads 0) (if has_tqdm c then s else print LNoTqdm s))
  | PThreads j =>
      if (j <? Z.to_nat (num_workers c))%nat
      then Some (RunState (PThreads (S j)) (start_thread s))
      else Some (RunState PGuarded s)
  | PGuarded | PAborted => None
  end.

(** [run_step c l x]: one step of a thread of the whole program.  The
    workers step as in [worker_step]; only started threads are in
    [workers].  The main thread steps as in [startup_step] and then as in
    [main_step], except when a [KeyboardInterrupt] arrives outside the
    [try] block: before line 209 no handler is in force, and from the
    handler and the [finally] clause (lines 219-234) the exception leaves
    [run] as well.  It then leaves [main] and the process ends with the
    daemon threads: nothing more is printed. *)
Definition run_step (c : config) (l : label) (x : run_state)
  : option run_state :=
  let s := state_of x in
  match phase_of x with
  | PAborted => None
  | PGuarded =>
      match l with
      | Worker i r => RunState PGuarded <$> worker_step c i r s
      | Main true =>
          if in_try s then RunState PGuarded <$> main_step c true s
          else if exited s then None
               else Some (RunState PAborted s)
      | Main false => RunState PGuarded <$> main_step c false s
      end
  | p =>
      match l with
      | Worker i r => RunState p <$> worker_step c i r s
      | Main true => Some (RunState PAborted s)
      | Main false => startup_step c p s
      end
  end.

Definition run_next (c : config) (x x' : run_state) : Prop :=
  ∃ l, run_step c l x = Some x'.

Fixpoint run_exec (c : config) (ls : list label) (x : run_state)
  : option run_state :=
  match ls with
  | [] => Some x
  | l :: ls' =>
      match run_step c l x with
      | Some x' => run_exec c ls' x'
      | None => None
      end
  end.

(** The states of the program from the first line of [run]. *)
Definition run_reachable (c : config) (x : run_state) : Prop :=
  rtc (run_next c) start x.



(** The threads that are not started yet, seen as workers that have not
    moved. *)
Definition pad (k : nat) (s : state) : state :=
  set_workers (workers s ++ replicate k WIdle) s.

(** The states before the first thread is started. *)
Definition early (c : config) (p : phase) (s : state) : Prop :=
  match p with
  | PBanner => s = constructed
  | PHeader | PSeed => s = prints (banner c) constructed
  | PProgress =>
      s = put (Some (main_keyword c), 0) (prints (banner c) constructed)
  | PThreads _ | PGuarded | PAborted => False
  end.

(** How the states of the program relate to the states counted from
    [initial]: with the threads still to be started added as idle
    workers, a state of the start-up is a state reachable from [initial],
    and from line 209 on the states are the same. *)
Definition run_inv (c : config) (x : run_state) : Prop :=
  match phase_of x with
  | PThreads j =>
      main_thread (state_of x) = MJoin ∧
      reachable c (pad (Z.to_nat (num_workers c) - j) (state_of x))
  | PGuarded => reachable c (state_of x)
  | PAborted =>
      exited (state_of x) = false ∧
      ((∃ p, early c p (state_of x)) ∨ ∃ k, reachable c (pad k (state_of x)))
  | p => early c p (state_of x)
  end.

(** *** The work that is left *)











(** *** Two interrupted runs *)


(** The main thread is in the [try] block: with [busy_round] behind it,
    worker 1 is inside the lookup of "rust lang". *)
Definition guarded_round : list label :=
  replicate 7 (Main false) ++ busy_round.

(** A first interrupt takes the main thread into the handler, a second
    one arrives while [cleanup] runs. *)
Definition interrupted_twice : list label :=
  guarded_round ++ [Main true; Main false; Main true].

(** ** Facts about strings *)

Module StrFacts.
Import Str.

Lemma lower_char_idem (ch : ascii) : lower_char (lower_char ch) = lower_char ch.
Proof.
  destruct ch as [[] [] [] [] [] [] [] []]; vm_compute; reflexivity.
Qed.

Lemma lower_idem (s : string) : lower (lower s) = lower s.
Proof.
  induction s as [|ch s IH]; simpl; [reflexivity|].
  by rewrite lower_char_idem, IH.
Qed.


(** *** [strip] *)
















End StrFacts.

(** ** The recording loop in closed form *)

Section record_facts.
Implicit Types (s : state) (l : list string) (seen : gset string).

Lemma fresh_spec seen l x : x ∈ fresh seen l ↔ x ∈ l ∧ x ∉ seen.
Proof.
  revert seen. induction l as [|y l IH]; intros seen; simpl.
  - split; [inversion 1 | intros [H _]; inversion H].
  - case_bool_decide as Hy.
    + rewrite IH. set_solver.
    + rewrite !elem_of_cons, IH. split.
      * intros [->|[Hin Hx]]; [by split; [left|]|].
        split; [by right|set_solver].
      * intros [[->|Hin] Hx]; [by left|].
        destruct (decide (x = y)) as [->|Hne]; [by left|].
        right. split; [done|set_solver].
Qed.

Lemma fresh_NoDup seen l : NoDup (fresh seen l).
Proof.
  revert seen. induction l as [|y l IH]; intros seen; simpl.
  - constructor.
  - case_bool_decide; [apply IH|].
    constructor; [|apply IH].
    rewrite fresh_spec. set_solver.
Qed.


(** What [record] leaves in each field. *)
Lemma record_spec d l s :
  let new := fresh (results s) l in
  record d l s =
    {| queue := queue s ++ ((λ x, (Some x, d + 1)) <$> new);
       unfinished := (unfinished s + length new)%nat;
       results := list_to_set new ∪ results s;
       processed_queries := processed_queries s;
       shutdown_flag := shutdown_flag s;
       sink := sink s ++ new;
       stdout := stdout s;
       fetched := fetched s;
       replies := replies s;
       children := children s ++ ((λ x, (x, d + 1)) <$> new);
       workers := workers s;
       main_thread := main_thread s |}.
Proof.
  unfold record. revert s. induction l as [|x l IH]; intros s; simpl.
  - destruct s; simpl.
    f_equal; rewrite ?app_nil_r; try done; try lia; set_solver.
  - rewrite IH. unfold record_one.
    case_bool_decide as Hx; [done|]. simpl.
    f_equal; rewrite <- ?app_assoc; try done; try lia; set_solver.
Qed.

End record_facts.

(** ** Reasoning about reachable states *)

Lemma reachable_initial c : reachable c (initial c).
Proof. apply rtc_refl. Qed.

Lemma reachable_step c s s' : reachable c s → step c s s' → reachable c s'.
Proof. intros Hr Hs. eapply rtc_r; eauto. Qed.

Lemma reachable_exec c ls s s' :
  reachable c s → exec c ls s = Some s' → reachable c s'.
Proof.
  revert s. induction ls as [|l ls IH]; intros s Hr; simpl.
  - by intros [= <-].
  - destruct (step_fn c l s) as [s1|] eqn:Hl; [|done].
    apply IH. eapply reachable_step; [done|]. by exists l.
Qed.

(** Induction over the steps of a run. *)
Lemma reachable_ind c (P : state → Prop) :
  P (initial c) →
  (∀ s s', reachable c s → P s → step c s s' → P s') →
  ∀ s, reachable c s → P s.
Proof.
  intros Hinit Hstep s Hr. unfold reachable in *.
  revert s Hr. apply (rtc_ind_r (λ s, P s)); [done|].
  intros s s' Hr Hs IH. by apply (Hstep s s').
Qed.

(** Case analysis of one step: one goal per transition of a thread. *)
Ltac step_cases H :=
  let l := fresh "l" in
  destruct H as [l H]; destruct l as [?i ?r | ?b]; simpl in H;
  [ unfold worker_step in H | unfold main_step in H ];
  repeat (case_match; simplify_eq; try done);
  unfold task_done in *;
  repeat match goal with
         | H : _ <$> _ = Some _ |- _ =>
             apply fmap_Some in H as (? & ? & ->)
         end;
  repeat (case_match; simplify_eq; try done).

(** *** Persisted lines, recorded children and the set of results *)

Lemma sink_inv_record d l s : sink_inv s → sink_inv (record d l s).
Proof.
  intros (Hnd & Hch & Hres). rewrite record_spec. unfold sink_inv; simpl.
  split_and!.
  - apply NoDup_app. split_and!; [done| |apply fresh_NoDup].
    intros x Hx Hx'. apply fresh_spec in Hx' as [_ Hx'].
    apply Hx'. rewrite <- Hres. by apply elem_of_list_to_set.
  - rewrite fmap_app, Hch. f_equal.
    rewrite <- list_fmap_compose. apply list_fmap_id.
  - rewrite list_to_set_app_L, Hres. set_solver.
Qed.

Lemma sink_inv_reachable c s : reachable c s → sink_inv s.
Proof.
  revert s. apply reachable_ind.
  - unfold sink_inv; simpl. split_and!; [constructor|done|done].
  - intros s s' _ IH Hstep.
    step_cases Hstep; try exact IH.
    apply (sink_inv_record _ _ s IH).
Qed.

(** *** Counting over the worker threads *)

Section wsum_facts.
Context (f : wstate → nat).
Local Open Scope nat_scope.

Lemma wsum_insert ws i w w' :
  ws !! i = Some w → wsum f (<[i:=w']> ws) + f w = wsum f ws + f w'.
Proof.
  unfold wsum. revert i. induction ws as [|a ws IH]; intros [|i] Hi;
    simplify_eq/=; [lia|].
  specialize (IH i Hi). lia.
Qed.

Lemma wsum_lookup ws i w : ws !! i = Some w → f w ≤ wsum f ws.
Proof.
  unfold wsum. revert i. induction ws as [|a ws IH]; intros [|i] Hi;
    simplify_eq/=; [lia|].
  specialize (IH i Hi). lia.
Qed.

Lemma wsum_lookup2 ws i j wi wj :
  i ≠ j → ws !! i = Some wi → ws !! j = Some wj →
  f wi + f wj ≤ wsum f ws.
Proof.
  unfold wsum. revert i j.
  induction ws as [|a ws IH]; intros [|i] [|j] Hne Hi Hj; simplify_eq/=.
  - pose proof (wsum_lookup ws j wj Hj). unfold wsum in *. lia.
  - pose proof (wsum_lookup ws i wi Hi). unfold wsum in *. lia.
  - assert (i ≠ j) as Hne' by congruence.
    specialize (IH i j Hne' Hi Hj). lia.
Qed.

Lemma wsum_replicate n w : wsum f (replicate n w) = n * f w.
Proof. unfold wsum. induction n as [|n IH]; csimpl; lia. Qed.

End wsum_facts.

Ltac count_workers f :=
  match goal with
  | H : workers ?s !! ?i = Some ?w |- context [wsum f (<[?i:=?w']> _)] =>
      pose proof (wsum_insert f _ i w w' H)
  end.

Ltac know_queue :=
  repeat match goal with
         | H : queue ?s = _ |- context [queue ?s] => rewrite H
         end.

Lemma accounting_reachable c s : reachable c s → accounting s.
Proof.
  revert s. apply reachable_ind.
  - unfold accounting; simpl. rewrite wsum_replicate. simpl. lia.
  - intros s s' _ IH Hstep. unfold accounting in *.
    step_cases Hstep; rewrite ?record_spec; simpl in *;
      try count_workers holding; simpl in *; know_queue;
      rewrite ?length_app, ?length_fmap in *; simpl in *; lia.
Qed.

(** *** Depth bound and keyword filter *)

Lemma keep_matching_spec kw data l :
  keep_matching kw data = Returns l →
  ∀ x, x ∈ l ↔ Some x ∈ data ∧ Str.contains kw (Str.lower x) = true.
Proof.
  revert l. induction data as [|[y|] data IH]; intros l; simpl.
  - intros [= <-] x. rewrite elem_of_nil. split; [done|].
    intros [H _]. by apply elem_of_nil in H.
  - destruct (keep_matching kw data) as [l'|] eqn:Hk; [|done].
    intros [= <-] x. specialize (IH l' eq_refl x).
    rewrite elem_of_cons.
    destruct (Str.contains kw (Str.lower y)) eqn:Hy.
    + rewrite elem_of_cons, IH. split.
      * intros [->|[? ?]]; [by split; [left|]|by split; [right|]].
      * intros [[[= ->]|?] ?]; [by left|by right].
    + rewrite IH. split.
      * intros [? ?]. by split; [right|].
      * intros [[[= ->]|?] ?]; [congruence|done].
  - done.
Qed.

(** A suggestion element without [data] makes the comprehension raise. *)
Example missing_data_raises :
  get_suggestions (rust_config 5) "rust"
    (Response 200 (Xml [Some "rust lang"; None]))
  = (Raises AttributeError, []).
Proof. reflexivity. Qed.

Lemma get_suggestions_matches c q r l :
  (get_suggestions c q r).1 = Returns l → ∀ x, x ∈ l → matches c x.
Proof.
  unfold get_suggestions. intros H x Hx.
  destruct r as [kind|status [msg|data]]; simpl in H;
    try destruct (raise_for_status status); simpl in H;
    try (injection H as <-; by apply elem_of_nil in Hx).
  by apply (keep_matching_spec _ _ _ H) in Hx as [_ ?].
Qed.

Ltac worker_fact H :=
  match goal with
  | Hall : Forall ?P (workers ?s), Hi : workers ?s !! _ = Some _ |- _ =>
      pose proof (Forall_lookup_1 _ _ _ _ Hall Hi) as H; simpl in H
  end.

Lemma filter_inv_reachable c s : reachable c s → filter_inv c s.
Proof.
  revert s. apply reachable_ind.
  - unfold filter_inv; simpl. split_and!.
    + apply Forall_replicate. exact I.
    + intros q d H. by apply elem_of_nil in H.
    + intros x H. by apply elem_of_nil in H.
  - intros s s' _ (Hw & Hf & Hs) Hstep. unfold filter_inv.
    step_cases Hstep; rewrite ?record_spec; simpl;
      (split_and!; [try (apply Forall_insert; [done|]; simpl; try done)
                   |try done|try done]).
    + lia.
    + worker_fact Hi. intros q' d'.
      rewrite elem_of_app, list_elem_of_singleton.
      intros [?|[= -> ->]]; [by eapply Hf|done].
    + by eapply get_suggestions_matches.
    + worker_fact Hi. intros x.
      rewrite elem_of_app, fresh_spec. intros [?|[? _]]; [by apply Hs|by apply Hi].
Qed.

(** *** Every query is claimed by one worker only *)

Section qcount_facts.
Local Open Scope nat_scope.

Lemma qcount_app q l1 l2 : qcount q (l1 ++ l2) = qcount q l1 + qcount q l2.
Proof. apply sum_list_with_app. Qed.

Lemma qcount_cons q t l : qcount q (t :: l) = task_is q t + qcount q l.
Proof. reflexivity. Qed.

Lemma task_is_same q d : task_is q (Some q, d) = 1.
Proof. unfold task_is; simpl. by rewrite decide_True. Qed.

Lemma task_is_other q q' d : q' ≠ q → task_is q (Some q', d) = 0.
Proof. intros. unfold task_is; simpl. rewrite decide_False; congruence. Qed.

Lemma task_is_stop q d : task_is q (None, d) = 0.
Proof. reflexivity. Qed.

Lemma qcount_children q d new :
  NoDup new →
  qcount q ((λ x, (Some x, d)) <$> new) = if decide (q ∈ new) then 1 else 0.
Proof.
  induction 1 as [|x new Hx Hnd IH]; csimpl.
  - reflexivity.
  - change (task_is q (Some x, d) + qcount q ((λ x, (Some x, d)) <$> new)
            = if decide (q ∈ x :: new) then 1 else 0).
    rewrite IH.
    destruct (decide (x = q)) as [->|Hne].
    + rewrite task_is_same, decide_False by done.
      rewrite decide_True; [done|]. by left.
    + rewrite task_is_other by done. simpl.
      destruct (decide (q ∈ new)).
      * rewrite decide_True; [done|]. by right.
      * rewrite decide_False; [done|]. rewrite elem_of_cons. naive_solver.
Qed.

End qcount_facts.

Lemma claim_inv_initial c : claim_inv c (initial c).
Proof.
  split; simpl.
  - intros q _. unfold demand; simpl. rewrite wsum_replicate.
    unfold task_is; simpl. case_decide; simpl; lia.
  - intros i q d Hi. apply lookup_replicate in Hi as [? _]. done.
  - intros q. unfold demand; simpl. rewrite wsum_replicate.
    unfold task_is; simpl. case_decide; simpl; [|lia]. intros _. left. congruence.
  - rewrite wsum_replicate. simpl. intros [?|?]; [done|lia].
  - split; [constructor|]. intros q H. by apply elem_of_nil in H.
Qed.

Ltac demand_cases Hstep q :=
  step_cases Hstep; rewrite ?record_spec; simpl;
  try count_workers (wants q); try count_workers busy; simpl in *; know_queue;
  rewrite ?qcount_app, ?qcount_cons, ?task_is_stop in *; simpl in *.

Lemma claim_unique_step c s s' :
  claim_inv c s → step c s s' →
  ∀ q, q ∉ processed_queries s' → (demand q s' ≤ 1)%nat.
Proof.
  intros [HU HW HA HB [HF1 HF2]] Hstep q.
  specialize (HU q). specialize (HA q). unfold demand in *.
  demand_cases Hstep q; intros Hq;
    try (assert (q ∉ processed_queries s) as Hq' by set_solver;
         specialize (HU Hq')); try lia.
  rewrite qcount_children by apply fresh_NoDup.
  case_decide as Hnew; [|lia].
  apply fresh_spec in Hnew as [_ Hnew].
  destruct (decide (0 < qcount q (queue s) + wsum (wants q) (workers s))%nat)
    as [Hpos|]; [|lia].
  destruct (HA Hpos) as [->|]; [|done].
  exfalso. apply Hq. apply HB. right.
  pose proof (wsum_lookup busy _ _ _ H0). simpl in *. lia.
Qed.

Lemma claim_origin_step c s s' :
  claim_inv c s → step c s s' →
  ∀ q, (0 < demand q s')%nat → q = main_keyword c ∨ q ∈ results s'.
Proof.
  intros [HU HW HA HB [HF1 HF2]] Hstep q.
  specialize (HA q). unfold demand in *.
  demand_cases Hstep q; intros Hq; try (apply HA; lia).
  rewrite qcount_children in Hq by apply fresh_NoDup.
  case_decide as Hnew.
  - right. apply elem_of_union_l. by apply elem_of_list_to_set.
  - destruct HA as [->|?]; [lia|by left|right; by apply elem_of_union_r].
Qed.

Lemma claim_seed_step c s s' :
  claim_inv c s → step c s s' →
  results s' ≠ ∅ ∨ (0 < wsum busy (workers s'))%nat →
  main_keyword c ∈ processed_queries s'.
Proof.
  intros [HU HW HA HB [HF1 HF2]] Hstep.
  step_cases Hstep; rewrite ?record_spec; simpl;
    try count_workers busy; simpl in *;
    try (intros [?|?]; apply HB; [by left|right; lia]).
  - (* line 125: the query is marked *)
    intros _. destruct (decide (q = main_keyword c)) as [->|Hne].
    { apply elem_of_union_l. by apply elem_of_singleton. }
    apply elem_of_union_r. apply HB. left.
    pose proof (wsum_lookup (wants q) _ _ _ H0) as Hw. simpl in Hw.
    rewrite task_is_same in Hw.
    destruct (HA q) as [?|Hres]; [unfold demand; lia|done|].
    intros Hempty. rewrite Hempty in Hres. by apply not_elem_of_empty in Hres.
  - (* the recording block *)
    intros _. apply HB. right.
    pose proof (wsum_lookup busy _ _ _ H0). simpl in *. lia.
Qed.

Lemma claim_window_step c s s' :
  claim_inv c s → step c s s' →
  ∀ j q d, workers s' !! j = Some (WWindow q d) → q ∉ processed_queries s'.
Proof.
  intros [HU HW HA HB [HF1 HF2]] Hstep j q' d'.
  step_cases Hstep; rewrite ?record_spec; simpl;
    try (intros Hj; apply list_lookup_insert_Some in Hj
           as [(_ & Heq & _)|[Hne Hj]];
         [by (discriminate || (destruct (shutdown_flag s); discriminate)
              || (destruct (queue_empty s || shutdown_flag s); discriminate))
         |by eapply HW]);
    try by apply HW.
  - (* line 120 passed: the window opens *)
    intros Hj. apply list_lookup_insert_Some in Hj as [(_ & Heq & _)|[Hne Hj]].
    + injection Heq as <- <-. by apply bool_decide_eq_false in H1.
    + by eapply HW.
  - (* line 125: another worker's window stays open *)
    intros Hj. apply list_lookup_insert_Some in Hj as [(_ & Heq & _)|[Hne Hj]];
      [discriminate|].
    pose proof (HW _ _ _ Hj) as Hq'.
    apply not_elem_of_union. split; [|done].
    rewrite elem_of_singleton. intros ->.
    pose proof (wsum_lookup2 (wants q) _ _ _ _ _ Hne H0 Hj) as Hw.
    simpl in Hw. rewrite !task_is_same in Hw.
    specialize (HU q Hq'). unfold demand in HU. lia.
Qed.

Lemma claim_fetched_step c s s' :
  claim_inv c s → step c s s' →
  NoDup (fetched s').*1 ∧ ∀ q, q ∈ (fetched s').*1 → q ∈ processed_queries s'.
Proof.
  intros [HU HW HA HB [HF1 HF2]] Hstep.
  step_cases Hstep; rewrite ?record_spec; simpl; try done.
  rewrite fmap_app. simpl. split.
  - apply NoDup_app. split_and!; [done| |apply NoDup_singleton].
    intros x Hx Hx'. apply list_elem_of_singleton in Hx' as ->.
    by apply (HW _ _ _ H0), HF2.
  - intros x. rewrite elem_of_app, list_elem_of_singleton.
    intros [? | ->]; [apply elem_of_union_r; by apply HF2|].
    apply elem_of_union_l. by apply elem_of_singleton.
Qed.

Lemma claim_inv_reachable c s : reachable c s → claim_inv c s.
Proof.
  revert s. apply reachable_ind; [apply claim_inv_initial|].
  intros s s' _ IH Hstep. split.
  - by eapply claim_unique_step.
  - by eapply claim_window_step.
  - by eapply claim_origin_step.
  - by eapply claim_seed_step.
  - by eapply claim_fetched_step.
Qed.

(** ** Properties of the crawler *)

(** C1.  In every reachable state the output file holds no string twice
    and no string was put on the queue as a child task twice, whatever the
    lookups returned; the lines of the file are the strings of the child
    tasks, in order.  A candidate that is already in [results] leaves the
    state as it is: nothing is written and nothing is put.  Recording the
    answer to a task of depth [d] appends the candidates not seen before,
    each once, to the file and to the queue at depth [d + 1]. *)
Theorem C1_persisted_and_enqueued_once c s :
  reachable c s →
  NoDup (sink s) ∧
  NoDup (children s).*1 ∧
  (children s).*1 = sink s ∧
  (∀ d x, x ∈ results s → record_one d s x = s) ∧
  (∀ d l,
     let new := fresh (results s) l in
     sink (record d l s) = sink s ++ new ∧
     queue (record d l s) = queue s ++ ((λ x, (Some x, d + 1)) <$> new) ∧
     NoDup new ∧ ∀ x, x ∈ new ↔ x ∈ l ∧ x ∉ results s).
Proof.
  intros Hr. destruct (sink_inv_reachable c s Hr) as (Hnd & Hch & Hres).
  split_and!; [done|by rewrite Hch|done| |].
  - intros d x Hx. unfold record_one. by rewrite bool_decide_eq_true_2.
  - intros d l new. rewrite record_spec. simpl.
    split_and!; [done|done|apply fresh_NoDup|apply fresh_spec].
Qed.

Lemma C1_witness :
  ∃ s, exec (rust_config 5) seed_round (initial (rust_config 5)) = Some s ∧
       sink s = ["rust lang"; "rustacean"] ∧
       NoDup (sink s) ∧ NoDup (children s).*1 ∧ (children s).*1 = sink s ∧
       (∀ d x, x ∈ results s → record_one d s x = s) ∧
       (∀ d l,
          let new := fresh (results s) l in
          sink (record d l s) = sink s ++ new ∧
          queue (record d l s) = queue s ++ ((λ x, (Some x, d + 1)) <$> new) ∧
          NoDup new ∧ ∀ x, x ∈ new ↔ x ∈ l ∧ x ∉ results s).
Proof.
  destruct (exec (rust_config 5) seed_round (initial (rust_config 5)))
    as [s|] eqn:He; [|by vm_compute in He].
  exists s. split; [done|]. split.
  - vm_compute in He. by injection He as <-.
  - apply (C1_persisted_and_enqueued_once (rust_config 5) s).
    eapply reachable_exec; [apply reachable_initial|exact He].
Defined.

(** A worker that holds a task keeps the counter of unfinished tasks
    positive, so its [task_done] succeeds. *)
Lemma holder_can_ack c s i w :
  reachable c s → workers s !! i = Some w → holding w = 1%nat →
  ∃ n, unfinished s = S n ∧ task_done s = Some (set_unfinished n s).
Proof.
  intros Hr Hi Hw. pose proof (accounting_reachable c s Hr) as Hacc.
  pose proof (wsum_lookup holding _ _ _ Hi) as Hle.
  unfold accounting in Hacc. unfold task_done.
  destruct (unfinished s) as [|n]; [lia|]. by exists n.
Qed.

(** C2.  Every call of the lookup was made for a task of depth below
    [max_depth].  A worker that holds a task of depth [max_depth] or more
    acknowledges it and returns to the top of its loop; the step changes
    nothing but the counter of unfinished tasks and the worker's position:
    no lookup, no line in the file, no new task. *)
Theorem C2_depth_limit c s i q d r :
  reachable c s →
  exited s = false →
  workers s !! i = Some (WGot (Some q, d)) →
  max_depth c ≤ d →
  (∀ q' d', (q', d') ∈ fetched s → d' < max_depth c) ∧
  ∃ n, unfinished s = S n ∧
       worker_step c i r s = Some (set_worker i WIdle (set_unfinished n s)).
Proof.
  intros Hr Hex Hi Hd. split.
  - apply (filter_inv_reachable c s Hr).
  - destruct (holder_can_ack c s i _ Hr Hi eq_refl) as (n & Hn & Hack).
    exists n. split; [done|].
    unfold worker_step. rewrite Hex, Hi, Hack.
    case_bool_decide; [done|].
    by rewrite (proj2 (Z.leb_le _ _) Hd).
Qed.

(** Worker 0 has handled the seed; worker 1 now holds the child
    ("rust lang", 1) while [max_depth] is 1. *)
Lemma C2_witness :
  ∃ s, exec (rust_config 1) (seed_round ++ moves 1 2) (initial (rust_config 1))
         = Some s ∧
       workers s !! 1%nat = Some (WGot (Some "rust lang", 1)) ∧
       (∀ q' d', (q', d') ∈ fetched s → d' < 1) ∧
       ∃ n, unfinished s = S n ∧
            worker_step (rust_config 1) 1 rust_reply s
              = Some (set_worker 1 WIdle (set_unfinished n s)).
Proof.
  destruct (exec (rust_config 1) (seed_round ++ moves 1 2)
              (initial (rust_config 1))) as [s|] eqn:He;
    [|by vm_compute in He].
  assert (workers s !! 1%nat = Some (WGot (Some "rust lang", 1))
          ∧ exited s = false) as [Hw Hex].
  { vm_compute in He. by injection He as <-. }
  exists s. split; [done|]. split; [done|].
  apply (C2_depth_limit (rust_config 1) s 1 "rust lang" 1 rust_reply);
    [|done|done|simpl; lia].
  eapply reachable_exec; [apply reachable_initial|exact He].
Defined.

(** C7.  A worker that holds a stop signal acknowledges it and stops.  The
    step changes only the counter and the worker's position, and a
    stopped worker takes no further step. *)
Theorem C7_stop_signal c s i d r :
  reachable c s →
  exited s = false →
  workers s !! i = Some (WGot (None, d)) →
  ∃ n s', unfinished s = S n ∧
          s' = set_worker i WStopped (set_unfinished n s) ∧
          worker_step c i r s = Some s' ∧
          workers s' !! i = Some WStopped ∧
          ∀ r', worker_step c i r' s' = None.
Proof.
  intros Hr Hex Hi.
  destruct (holder_can_ack c s i _ Hr Hi eq_refl) as (n & Hn & Hack).
  exists n, (set_worker i WStopped (set_unfinished n s)).
  assert (workers (set_worker i WStopped (set_unfinished n s)) !! i
          = Some WStopped) as Hstop.
  { simpl. apply list_lookup_insert_eq. by eapply lookup_lt_Some. }
  split_and!; [done|done| |done|].
  - unfold worker_step. by rewrite Hex, Hi, Hack.
  - intros r'. unfold worker_step. rewrite Hstop.
    by destruct (exited _).
Qed.

Lemma C7_witness :
  ∃ s, exec (rust_config 0) drained_round (initial (rust_config 0)) = Some s ∧
       workers s !! 1%nat = Some (WGot stop_signal) ∧
       ∃ n s', unfinished s = S n ∧
               s' = set_worker 1 WStopped (set_unfinished n s) ∧
               worker_step (rust_config 0) 1 no_reply s = Some s' ∧
               workers s' !! 1%nat = Some WStopped ∧
               ∀ r', worker_step (rust_config 0) 1 r' s' = None.
Proof.
  destruct (exec (rust_config 0) drained_round (initial (rust_config 0)))
    as [s|] eqn:He; [|by vm_compute in He].
  assert (workers s !! 1%nat = Some (WGot stop_signal) ∧ exited s = false)
    as [Hw Hex].
  { vm_compute in He. by injection He as <-. }
  exists s. split; [done|]. split; [done|].
  apply (C7_stop_signal (rust_config 0) s 1 0 no_reply); [|done|done].
  eapply reachable_exec; [apply reachable_initial|exact He].
Defined.

(** C3.  Every line of the output file contains the keyword given to the
    constructor, compared without regard to case.  For the keyword "rust"
    the lookup keeps "rust lang" and "rustacean" of the three candidates,
    and a run that receives them persists exactly these two. *)
Theorem C3_persisted_contain_keyword keyword dir nw md ts tq s :
  reachable (SuggestionWorker_init keyword dir nw md ts tq) s →
  (∀ x, x ∈ sink s → Str.icontains keyword x = true) ∧
  let c := SuggestionWorker_init "rust" dir nw md ts tq in
  let r := Response 200 (Xml [Some "rust lang"; Some "go lang"; Some "rustacean"]) in
  get_suggestions c "rust" r = (Returns ["rust lang"; "rustacean"], []) ∧
  sink (record 0 ["rust lang"; "rustacean"] (initial c))
    = ["rust lang"; "rustacean"].
Proof.
  intros Hr. split.
  - intros x Hx.
    destruct (filter_inv_reachable _ s Hr) as (_ & _ & Hs).
    exact (Hs x Hx).
  - split; [reflexivity|]. by rewrite record_spec.
Qed.

Lemma C3_witness :
  ∃ s, exec (rust_config 5) (moves 0 4 ++ [Worker 0%nat three_candidates]
                               ++ moves 0 2)
         (initial (rust_config 5)) = Some s ∧
       sink s = ["rust lang"; "rustacean"] ∧
       (∀ x, x ∈ sink s → Str.icontains "Rust" x = true).
Proof.
  destruct (exec (rust_config 5)
              (moves 0 4 ++ [Worker 0%nat three_candidates] ++ moves 0 2)
              (initial (rust_config 5))) as [s|] eqn:He;
    [|by vm_compute in He].
  exists s. split; [done|]. split.
  - vm_compute in He. by injection He as <-.
  - apply (C3_persisted_contain_keyword
             "Rust" "results" 2 5 "20240101_120000" true s).
    eapply reachable_exec; [apply reachable_initial|exact He].
Defined.

(** C4.  On a transport failure and on a payload that cannot be parsed
    the lookup returns the empty list and prints one line that names the
    query; it raises nothing.  The worker that made the call goes on to
    the recording block with nothing to record.  No answer at all ends
    the worker: after any reply it is either at the recording block or,
    when the lookup raised (a suggestion without text), back at the top
    of its loop with the task acknowledged. *)
Theorem C4_lookup_failure_is_empty c q r :
  lookup_failure r →
  (∃ l, get_suggestions c q r = (Returns [], [l]) ∧ reports q l) ∧
  (∀ s i d,
     exited s = false → workers s !! i = Some (WFetch q d) →
     ∃ l, worker_step c i r s =
            Some (set_worker i (WRecord q d [])
                    (set_replies (replies s ++ [(q, d, r)]) (print l s))) ∧
          reports q l) ∧
  (∀ s i d r',
     reachable c s →
     exited s = false → workers s !! i = Some (WFetch q d) →
     ∃ s', worker_step c i r' s = Some s' ∧
           (workers s' !! i = Some WIdle ∨
            ∃ l, workers s' !! i = Some (WRecord q d l))).
Proof.
  intros Hf.
  assert (∃ l, get_suggestions c q r = (Returns [], [l]) ∧ reports q l)
    as (l & Hl & Hrep).
  { destruct Hf as [kind|status b Hs|status msg Hs]; simpl; rewrite ?Hs.
    - eexists. split; [done|]. left. by eexists.
    - eexists. split; [done|]. left. by eexists.
    - eexists. split; [done|]. right. by eexists. }
  split_and!; [by exists l| |].
  - intros s i d Hex Hi. exists l. split; [|done].
    unfold worker_step. by rewrite Hex, Hi, Hl.
  - intros s i d r' Hr Hex Hi.
    pose proof (lookup_lt_Some _ _ _ Hi) as Hlt.
    unfold worker_step. rewrite Hex, Hi.
    destruct (get_suggestions c q r').1 as [l'|e].
    + eexists. split; [done|]. right. exists l'. simpl.
      by apply list_lookup_insert_eq.
    + destruct (holder_can_ack c s i _ Hr Hi eq_refl) as (n & Hn & _).
      unfold task_done. simpl. rewrite Hn. simpl.
      eexists. split; [done|]. left. simpl.
      by apply list_lookup_insert_eq.
Qed.

Lemma C4_witness :
  (∃ l, get_suggestions (rust_config 5) "rust" (Response 503 (Xml []))
          = (Returns [], [l]) ∧ reports "rust" l) ∧
  (∀ s i d,
     exited s = false → workers s !! i = Some (WFetch "rust" d) →
     ∃ l, worker_step (rust_config 5) i (Response 503 (Xml [])) s =
            Some (set_worker i (WRecord "rust" d [])
                    (set_replies
                       (replies s ++ [("rust", d, Response 503 (Xml []))])
                       (print l s))) ∧
          reports "rust" l) ∧
  (∀ s i d r',
     reachable (rust_config 5) s →
     exited s = false → workers s !! i = Some (WFetch "rust" d) →
     ∃ s', worker_step (rust_config 5) i r' s = Some s' ∧
           (workers s' !! i = Some WIdle ∨
            ∃ l, workers s' !! i = Some (WRecord "rust" d l))).
Proof.
  apply (C4_lookup_failure_is_empty (rust_config 5) "rust"
           (Response 503 (Xml []))).
  apply status_failure. reflexivity.
Defined.

(** C6.  No query is looked up twice.  While a worker stands between the
    membership test of line 113 and the insertion of line 125, its query
    is not marked, has not been looked up, is in no queued task and in no
    other worker's hands: no second worker can test the same query before
    the first has marked it. *)
Theorem C6_query_fetched_once c s :
  reachable c s →
  NoDup (fetched s).*1 ∧
  ∀ i q d,
    workers s !! i = Some (WWindow q d) →
    (q ∉ processed_queries s) ∧
    (q ∉ (fetched s).*1) ∧
    (∀ d', (Some q, d') ∉ queue s) ∧
    (∀ j d', j ≠ i →
       workers s !! j ≠ Some (WWindow q d') ∧
       workers s !! j ≠ Some (WGot (Some q, d'))).
Proof.
  intros Hr. destruct (claim_inv_reachable c s Hr) as [HU HW HA HB [HF1 HF2]].
  split; [done|]. intros i q d Hi.
  pose proof (HW _ _ _ Hi) as Hq. specialize (HU q Hq). unfold demand in HU.
  split_and!; [done|by intros ?%HF2| |].
  - intros d' Hin.
    pose proof (wsum_lookup (wants q) _ _ _ Hi) as Hw. simpl in Hw.
    pose proof (sum_list_with_in _ (task_is q) _ Hin) as Hq'.
    rewrite !task_is_same in *. unfold qcount in HU. lia.
  - intros j d' Hne.
    split; intros Hj;
      pose proof (wsum_lookup2 (wants q) _ _ _ _ _ Hne Hj Hi) as Hw;
      simpl in Hw; rewrite !task_is_same in Hw; lia.
Qed.

Lemma C6_witness :
  ∃ s, exec (rust_config 5) (moves 0 3) (initial (rust_config 5)) = Some s ∧
       workers s !! 0%nat = Some (WWindow "rust" 0) ∧
       NoDup (fetched s).*1 ∧
       ∀ i q d,
         workers s !! i = Some (WWindow q d) →
         (q ∉ processed_queries s) ∧
         (q ∉ (fetched s).*1) ∧
         (∀ d', (Some q, d') ∉ queue s) ∧
         (∀ j d', j ≠ i →
            workers s !! j ≠ Some (WWindow q d') ∧
            workers s !! j ≠ Some (WGot (Some q, d'))).
Proof.
  destruct (exec (rust_config 5) (moves 0 3) (initial (rust_config 5)))
    as [s|] eqn:He; [|by vm_compute in He].
  exists s. split; [done|]. split.
  - vm_compute in He. by injection He as <-.
  - apply (C6_query_fetched_once (rust_config 5) s).
    eapply reachable_exec; [apply reachable_initial|exact He].
Defined.

(** *** Depth limit zero *)

Lemma zero_inv_reachable c s : max_depth c ≤ 0 → reachable c s → zero_inv s.
Proof.
  intros Hmax. revert s. apply reachable_ind.
  - unfold zero_inv; simpl. split_and!; try done.
    + by repeat constructor.
    + by apply Forall_replicate.
  - intros s s' _ (Hq & Hw & Hrest) Hstep. unfold zero_inv.
    step_cases Hstep; simpl; try worker_fact Hi; try done;
      know_queue;
      try (split_and!; [try done..|apply Hrest]; []);
      repeat match goal with
             | |- Forall shallow (<[_:=_]> _) =>
                 apply Forall_insert; [done|simpl]
             | |- _ ∧ _ => split
             | H : Forall _ (_ :: _) |- _ => apply Forall_cons in H as [? ?]
             | |- Forall _ (_ ++ _) => apply Forall_app; split
             | |- Forall _ [_] => apply Forall_singleton
             end; simpl in *; try done; try apply Hrest;
      try (destruct (shutdown_flag s); done);
      try (destruct (queue_empty s || shutdown_flag s); done).
    all: try match goal with
             | H : (_ <=? _) = false |- _ => apply Z.leb_gt in H; lia
             end.
Qed.

(** C5 as stated fails.  Take "rust" with [max_depth] 0 and a provider
    that answers every query with [rust_reply]: the finished run has
    persisted nothing, while the seed lookup would return "rust lang" and
    "rustacean". *)
Lemma C5_counterexample :
  ¬ (∀ (c : config) (provider : string → reply) (s : state),
       max_depth c = 0 →
       reachable c s →
       exited s = true →
       (∀ q d r, (q, d, r) ∈ replies s → r = provider q) →
       sink s = fresh ∅ (returned c (main_keyword c)
                           (provider (main_keyword c)))).
Proof.
  intros H.
  destruct (exec (rust_config 0) zero_depth_run (initial (rust_config 0)))
    as [s|] eqn:He; [|by vm_compute in He].
  assert (exited s = true ∧ replies s = [] ∧ sink s = []) as (Hex & Hrep & Hs).
  { vm_compute in He. by injection He as <-. }
  specialize (H (rust_config 0) (λ _, rust_reply) s eq_refl).
  rewrite Hs, Hrep in H.
  assert (reachable (rust_config 0) s) as Hr.
  { eapply reachable_exec; [apply reachable_initial|exact He]. }
  specialize (H Hr Hex).
  assert (fresh ∅ (returned (rust_config 0) (main_keyword (rust_config 0))
                     rust_reply) = ["rust lang"; "rustacean"]) as Hf.
  { by vm_compute. }
  rewrite Hf in H.
  assert ([] = ["rust lang"; "rustacean"]) as Habs; [|discriminate].
  apply H. intros q d r Hin. by apply elem_of_nil in Hin.
Qed.

(** C5, amended.  With [max_depth] 0 no lookup is ever made: the seed
    itself fails the depth test of line 120.  Nothing is persisted,
    nothing is put as a child, [results] stays empty, and the worker that
    holds the seed acknowledges it and returns to the top of its loop. *)
Theorem C5_zero_depth_fetches_nothing c s :
  max_depth c = 0 →
  reachable c s →
  fetched s = [] ∧ replies s = [] ∧ sink s = [] ∧ children s = [] ∧
  results s = ∅ ∧
  ∀ i r, exited s = false →
         workers s !! i = Some (WGot (Some (main_keyword c), 0)) →
         ∃ n, unfinished s = S n ∧
              worker_step c i r s
                = Some (set_worker i WIdle (set_unfinished n s)).
Proof.
  intros Hmax Hr.
  destruct (zero_inv_reachable c s) as (_ & _ & Hf & Hrep & Hs & Hch & Hres & _);
    [lia|done|].
  split_and!; try done.
  intros i r Hex Hi.
  destruct (holder_can_ack c s i _ Hr Hi eq_refl) as (n & Hn & Hack).
  exists n. split; [done|].
  unfold worker_step. rewrite Hex, Hi, Hack, Hmax.
  by case_bool_decide.
Qed.

Lemma C5_witness :
  ∃ s, exec (rust_config 0) (moves 0 2) (initial (rust_config 0)) = Some s ∧
       workers s !! 0%nat = Some (WGot (Some "rust", 0)) ∧
       fetched s = [] ∧ replies s = [] ∧ sink s = [] ∧ children s = [] ∧
       results s = ∅ ∧
       ∀ i r, exited s = false →
              workers s !! i = Some (WGot (Some "rust", 0)) →
              ∃ n, unfinished s = S n ∧
                   worker_step (rust_config 0) i r s
                     = Some (set_worker i WIdle (set_unfinished n s)).
Proof.
  destruct (exec (rust_config 0) (moves 0 2) (initial (rust_config 0)))
    as [s|] eqn:He; [|by vm_compute in He].
  exists s. split; [done|]. split.
  - vm_compute in He. by injection He as <-.
  - apply (C5_zero_depth_fetches_nothing (rust_config 0) s); [reflexivity|].
    eapply reachable_exec; [apply reachable_initial|exact He].
Defined.

(** *** The end of [run] *)

Lemma exec_app c l1 l2 s :
  exec c (l1 ++ l2) s = exec c l1 s ≫= exec c l2.
Proof.
  revert s. induction l1 as [|l l1 IH]; intros s; simpl; [done|].
  destruct (step_fn c l s); [apply IH|done].
Qed.




Section main_thread_alone.
Context (c : config).











End main_thread_alone.

Lemma queue_below_unfinished c s :
  reachable c s → (length (queue s) ≤ unfinished s)%nat.
Proof.
  intros Hr. pose proof (accounting_reachable c s Hr) as Hacc.
  unfold accounting in Hacc. lia.
Qed.

(** *** The empty keyword *)




(** *** The case of the keyword *)

Lemma hide_file_eq s s' :
  hide_file s = hide_file s' ↔
  set_stdout [] s = set_stdout [] s' ∧
  anonymise <$> stdout s = anonymise <$> stdout s'.
Proof.
  destruct s, s'. unfold hide_file, set_stdout; simpl. split.
  - intros [=]. by subst.
  - intros [[=] ?]. subst. by f_equal.
Qed.

Lemma step_fn_same_crawl c f l s s' :
  hide_file s = hide_file s' →
  same_crawl (step_fn c l s) (step_fn (with_output_file f c) l s').
Proof.
  intros [Heq Hout]%hide_file_eq. unfold same_crawl.
  destruct s, s'. unfold set_stdout in Heq. simpl in *.
  inversion Heq; subst; clear Heq.
  destruct l as [i r|b]; simpl.
  - unfold worker_step, exited, task_done, queue_empty; simpl.
    change (get_suggestions (with_output_file f c)) with (get_suggestions c).
    repeat (case_match; simplify_eq; try done); csimpl;
      unfold hide_file; rewrite ?record_spec; simpl;
      rewrite ?fmap_app, ?Hout; try done.
  - unfold main_step, task_done; simpl.
    repeat (case_match; simplify_eq; try done); csimpl;
      unfold hide_file; simpl; rewrite ?fmap_app, ?Hout; try done.
Qed.

Lemma exec_same_crawl c f ls s s' :
  hide_file s = hide_file s' →
  same_crawl (exec c ls s) (exec (with_output_file f c) ls s').
Proof.
  revert s s'. induction ls as [|l ls IH]; intros s s' Heq; simpl.
  - unfold same_crawl; simpl. by rewrite Heq.
  - pose proof (step_fn_same_crawl c f l s s' Heq) as Hstep.
    unfold same_crawl in Hstep.
    destruct (step_fn c l s) as [s1|], (step_fn (with_output_file f c) l s')
      as [s1'|]; try done.
    apply IH. change (Some (hide_file s1) = Some (hide_file s1')) in Hstep.
    congruence.
Qed.

Lemma with_output_file_init K dir nw md ts tq :
  SuggestionWorker_init K dir nw md ts tq
  = with_output_file
      (output_file (SuggestionWorker_init K dir nw md ts tq))
      (SuggestionWorker_init (Str.lower K) dir nw md ts tq).
Proof.
  unfold SuggestionWorker_init, with_output_file; simpl.
  by rewrite StrFacts.lower_idem.
Qed.

(** C10.  The constructor keeps the lowered keyword.  For a keyword [K]
    and for [K.lower()] it builds the same object except for the name of
    the output file, which carries [K] as given; the seed is [K.lower()]
    at depth 0; the lookup keeps the candidates whose lowered text
    contains [K.lower()]; the worker threads take the same steps, and
    every schedule leads both runs to the same state once the file name
    is blanked in the printed lines. *)
Theorem C10_keyword_is_lowered K dir nw md ts tq :
  let c := SuggestionWorker_init K dir nw md ts tq in
  let c' := SuggestionWorker_init (Str.lower K) dir nw md ts tq in
  main_keyword c = Str.lower K ∧
  main_keyword c' = Str.lower K ∧
  queue (initial c) = [(Some (Str.lower K), 0)] ∧
  queue (initial c') = [(Some (Str.lower K), 0)] ∧
  (∀ q r, get_suggestions c q r = get_suggestions c' q r) ∧
  (∀ q status data l,
     raise_for_status status = false →
     (get_suggestions c q (Response status (Xml data))).1 = Returns l →
     ∀ x, x ∈ l ↔
          Some x ∈ data ∧ Str.contains (Str.lower K) (Str.lower x) = true) ∧
  (∀ i r s, worker_step c i r s = worker_step c' i r s) ∧
  (∀ ls, same_crawl (exec c' ls (initial c')) (exec c ls (initial c))) ∧
  output_file c
  = Str.path_join dir ("suggestions_" ++ K ++ "_" ++ ts ++ ".txt")%string ∧
  c = with_output_file (output_file c) c'.
Proof.
  intros c c'.
  assert (main_keyword c' = main_keyword c) as Hkw.
  { simpl. apply StrFacts.lower_idem. }
  assert (c = with_output_file (output_file c) c') as Hc.
  { apply with_output_file_init. }
  split_and!; try done.
  - simpl. by rewrite StrFacts.lower_idem.
  - unfold get_suggestions. by rewrite Hkw.
  - intros q status data l Hst. unfold get_suggestions. rewrite Hst. simpl.
    apply keep_matching_spec.
  - intros i r s. unfold worker_step.
    replace (max_depth c') with (max_depth c) by done.
    assert (∀ q, get_suggestions c' q r = get_suggestions c q r) as Hg.
    { intros q. unfold get_suggestions. by rewrite Hkw. }
    destruct (exited s); [done|].
    destruct (workers s !! i) as [w|]; [|done].
    destruct w; try done. by rewrite !Hg.
  - intros ls. rewrite Hc at 1 2. apply exec_same_crawl.
    unfold hide_file, initial; simpl.
    by rewrite StrFacts.lower_idem.
Qed.

Lemma C10_witness :
  let c := SuggestionWorker_init "Rust" "results" 2 5 "20240101_120000" true in
  let c' := SuggestionWorker_init "rust" "results" 2 5 "20240101_120000" true in
  output_file c = "results/suggestions_Rust_20240101_120000.txt" ∧
  output_file c' = "results/suggestions_rust_20240101_120000.txt" ∧
  main_keyword c = "rust" ∧
  (∀ ls, same_crawl (exec c' ls (initial c')) (exec c ls (initial c))) ∧
  (∀ q l,
     (get_suggestions c q rust_reply).1 = Returns l →
     ∀ x, x ∈ l ↔
          Some x ∈ [Some "rust lang"; Some "go lang"; Some "rustacean";
                    Some "rust lang"]
          ∧ Str.contains "rust" (Str.lower x) = true).
Proof.
  intros c c'.
  pose proof (C10_keyword_is_lowered "Rust" "results" 2 5 "20240101_120000" true)
    as (Hk & _ & _ & _ & _ & Hfilter & _ & Hsame & _ & _).
  split_and!; [reflexivity|reflexivity|reflexivity|exact Hsame|].
  intros q l. by apply (Hfilter q 200).
Defined.

(** ** Further properties *)

(** A worker that has not stopped can take its next step. *)
Lemma worker_can_step c s i w r :
  reachable c s → exited s = false →
  workers s !! i = Some w → w ≠ WStopped →
  ∃ s', worker_step c i r s = Some s'.
Proof.
  intros Hr Hex Hi Hw. unfold worker_step. rewrite Hex, Hi.
  destruct w as [| | |[[q|] d]|q d|q d|q d l|q d|]; try done;
    try (by eexists); try (by destruct (queue s); eexists).
  - destruct (holder_can_ack c s i _ Hr Hi eq_refl) as (n & _ & ->).
    repeat case_match; by eexists.
  - destruct (holder_can_ack c s i _ Hr Hi eq_refl) as (n & _ & ->).
    by eexists.
  - destruct (get_suggestions c q r).1; [by eexists|].
    destruct (holder_can_ack c s i _ Hr Hi eq_refl) as (n & Hn & _).
    unfold task_done. simpl. rewrite Hn. by eexists.
  - destruct (holder_can_ack c s i _ Hr Hi eq_refl) as (n & _ & ->).
    by eexists.
Qed.

(** X1.  No thread is ever stuck on an exception.  The counter of
    unfinished tasks equals the number of queued tasks plus the number of
    tasks in the hands of workers, so [task_done] is never called once too
    often: a worker that has not stopped can always take its next step,
    and the main thread can always take its next step unless it waits in
    [queue.join()] for tasks that are not acknowledged yet. *)
Theorem X1_no_thread_is_stuck c s :
  reachable c s →
  exited s = false →
  unfinished s = (length (queue s) + wsum holding (workers s))%nat ∧
  (∀ i w r, workers s !! i = Some w → w ≠ WStopped →
            ∃ s', worker_step c i r s = Some s') ∧
  (∀ b, (main_thread s = MJoin ∧ unfinished s ≠ 0%nat ∧ b = false) ∨
        ∃ s', main_step c b s = Some s').
Proof.
  intros Hr Hex. pose proof (accounting_reachable c s Hr) as Hacc.
  split_and!; [done| |].
  - intros i w r Hi Hw. by eapply worker_can_step.
  - intros b. unfold exited in Hex. unfold main_step.
    destruct (main_thread s) as [|[|k]| | | |[|k]| | |] eqn:Hm; try done;
      try (right; destruct b; by eexists).
    + destruct b; [right; by eexists|].
      destruct (unfinished s) eqn:Hu; [right; by eexists|left; done].
    + right. destruct (queue s) as [|t rest] eqn:Hq; [by eexists|].
      unfold accounting in Hacc. rewrite Hq in Hacc. simpl in Hacc.
      unfold task_done. simpl. destruct (unfinished s); [lia|by eexists].
Qed.

Lemma X1_witness :
  ∃ s, exec (rust_config 5) busy_round (initial (rust_config 5)) = Some s ∧
       unfinished s = (length (queue s) + wsum holding (workers s))%nat ∧
       (∀ i w r, workers s !! i = Some w → w ≠ WStopped →
                 ∃ s', worker_step (rust_config 5) i r s = Some s') ∧
       (∀ b, (main_thread s = MJoin ∧ unfinished s ≠ 0%nat ∧ b = false) ∨
             ∃ s', main_step (rust_config 5) b s = Some s').
Proof.
  destruct (exec (rust_config 5) busy_round (initial (rust_config 5)))
    as [s|] eqn:He; [|by vm_compute in He].
  assert (exited s = false) as Hex.
  { vm_compute in He. by injection He as <-. }
  exists s. split; [done|].
  apply (X1_no_thread_is_stuck (rust_config 5) s); [|done].
  eapply reachable_exec; [apply reachable_initial|exact He].
Defined.

(** *** What only grows *)

Lemma grows_refl s : grows s s.
Proof. unfold grows. by split_and!. Qed.

Lemma grows_trans s1 s2 s3 : grows s1 s2 → grows s2 s3 → grows s1 s3.
Proof.
  unfold grows. intros (? & ? & ? & ? & ? & ? & ?) (? & ? & ? & ? & ? & ? & ?).
  split_and!;
    [by etrans|by etrans|by etrans|set_solver|set_solver|auto|congruence].
Qed.

Lemma grows_step c l s s' : step_fn c l s = Some s' → grows s s'.
Proof.
  intros Hstep. assert (step c s s') as Hs by by exists l. clear Hstep.
  unfold grows.
  step_cases Hs; rewrite ?record_spec; simpl;
    rewrite ?length_insert;
    rewrite <- ?app_assoc;
    split_and!; try done; try (by apply prefix_app_r);
      try set_solver.
Qed.

(** X4.  Along any run the output file, the log of lookups and the
    terminal output are only appended to, [results] and
    [processed_queries] only gain elements, the shutdown flag is never
    cleared and no worker thread is added or removed. *)
Theorem X4_append_only c ls s s' :
  exec c ls s = Some s' →
  sink s `prefix_of` sink s' ∧
  fetched s `prefix_of` fetched s' ∧
  stdout s `prefix_of` stdout s' ∧
  results s ⊆ results s' ∧
  processed_queries s ⊆ processed_queries s' ∧
  (shutdown_flag s = true → shutdown_flag s' = true) ∧
  length (workers s') = length (workers s).
Proof.
  revert s. induction ls as [|l ls IH]; intros s; simpl.
  - intros [= <-]. apply grows_refl.
  - destruct (step_fn c l s) as [s1|] eqn:Hl; [|done].
    intros He. eapply grows_trans; [by eapply grows_step|by apply IH].
Qed.

Lemma X4_witness :
  ∃ s s', exec (rust_config 5) seed_round (initial (rust_config 5)) = Some s ∧
          exec (rust_config 5) (moves 1 4) s = Some s' ∧
          fetched s' = [("rust", 0); ("rust lang", 1)] ∧
          sink s `prefix_of` sink s' ∧
          fetched s `prefix_of` fetched s' ∧
          stdout s `prefix_of` stdout s' ∧
          results s ⊆ results s' ∧
          processed_queries s ⊆ processed_queries s' ∧
          (shutdown_flag s = true → shutdown_flag s' = true) ∧
          length (workers s') = length (workers s).
Proof.
  destruct (exec (rust_config 5) seed_round (initial (rust_config 5)))
    as [s|] eqn:He; [|by vm_compute in He].
  destruct (exec (rust_config 5) (moves 1 4) s) as [s'|] eqn:He';
    [|vm_compute in He; injection He as <-; by vm_compute in He'].
  exists s, s'. split; [done|]. split; [done|]. split.
  - vm_compute in He. injection He as <-.
    vm_compute in He'. by injection He' as <-.
  - exact (X4_append_only (rust_config 5) (moves 1 4) s s' He').
Defined.

(** *** After the last acknowledgement *)

Lemma same_output_refl s : same_output s s.
Proof. by unfold same_output. Qed.

Lemma same_output_trans s1 s2 s3 :
  same_output s1 s2 → same_output s2 s3 → same_output s1 s3.
Proof.
  unfold same_output. intros (? & ? & ? & ?) (? & ? & ? & ?).
  split_and!; congruence.
Qed.

Lemma quiet_step c l s s' :
  quiet s → step_fn c l s = Some s' → quiet s' ∧ same_output s s'.
Proof.
  intros [Hq Hw] Hstep. assert (step c s s') as Hs by by exists l.
  clear Hstep. unfold quiet, same_output.
  step_cases Hs; simpl; try worker_fact Hi; try done; know_queue;
    repeat match goal with
           | H : Forall _ (_ :: _) |- _ => apply Forall_cons in H as [? ?]
           end;
    (split; [split|done]); try done;
    try (apply Forall_insert; [done|simpl]); try done;
    try (destruct (shutdown_flag s); done);
    try (destruct (queue_empty s || shutdown_flag s); done);
    try (apply Forall_app; split; [done|by apply Forall_singleton]).
Qed.

Lemma quiet_exec c ls s s' :
  quiet s → exec c ls s = Some s' → quiet s' ∧ same_output s s'.
Proof.
  revert s. induction ls as [|l ls IH]; intros s Hq; simpl.
  - intros [= <-]. split; [done|apply same_output_refl].
  - destruct (step_fn c l s) as [s1|] eqn:Hl; [|done]. intros He.
    destruct (quiet_step c l s s1 Hq Hl) as [Hq1 Hs1].
    destruct (IH s1 Hq1 He) as [Hq' Hs']. split; [done|].
    by eapply same_output_trans.
Qed.

Lemma all_acknowledged_quiet s :
  accounting s → unfinished s = 0%nat → quiet s.
Proof.
  unfold accounting. intros Hacc Hz. rewrite Hz in Hacc. split.
  - destruct (queue s); [constructor|simpl in Hacc; lia].
  - apply Forall_lookup_2. intros i w Hi.
    pose proof (wsum_lookup holding _ _ _ Hi) as Hle.
    destruct w; simpl in *; try done; lia.
Qed.

(** X3.  [queue.join()] is a sound test for completion.  Once every task
    that was put has been acknowledged, the queue is empty and no worker
    holds a task, and whatever the threads do afterwards (stop signals,
    timeouts, an interrupt) no lookup is made, no line is written and
    neither [results] nor [processed_queries] changes. *)
Theorem X3_join_means_complete c s :
  reachable c s →
  unfinished s = 0%nat →
  queue s = [] ∧
  (∀ i w, workers s !! i = Some w → holding w = 0%nat) ∧
  ∀ ls s', exec c ls s = Some s' →
           sink s' = sink s ∧ results s' = results s ∧
           fetched s' = fetched s ∧
           processed_queries s' = processed_queries s.
Proof.
  intros Hr Hz. pose proof (accounting_reachable c s Hr) as Hacc.
  split_and!.
  - unfold accounting in Hacc. rewrite Hz in Hacc.
    destruct (queue s); [done|simpl in Hacc; lia].
  - intros i w Hi. pose proof (wsum_lookup holding _ _ _ Hi) as Hle.
    unfold accounting in Hacc. lia.
  - intros ls s' He.
    by destruct (quiet_exec c ls s s' (all_acknowledged_quiet s Hacc Hz) He).
Qed.

(** The lookup of the seed fails, so the seed is acknowledged with
    nothing recorded and the crawl is complete. *)
Lemma X3_witness :
  ∃ s, exec (rust_config 5) (moves 0 7) (initial (rust_config 5)) = Some s ∧
       fetched s = [("rust", 0)] ∧
       queue s = [] ∧
       (∀ i w, workers s !! i = Some w → holding w = 0%nat) ∧
       ∀ ls s', exec (rust_config 5) ls s = Some s' →
                sink s' = sink s ∧ results s' = results s ∧
                fetched s' = fetched s ∧
                processed_queries s' = processed_queries s.
Proof.
  destruct (exec (rust_config 5) (moves 0 7) (initial (rust_config 5)))
    as [s|] eqn:He; [|by vm_compute in He].
  assert (fetched s = [("rust", 0)] ∧ unfinished s = 0%nat) as [Hf Hz].
  { vm_compute in He. by injection He as <-. }
  exists s. split; [done|]. split; [done|].
  apply (X3_join_means_complete (rust_config 5) s); [|done].
  eapply reachable_exec; [apply reachable_initial|exact He].
Defined.

(** *** [cleanup] *)

Lemma exec_app_Some c l1 l2 s s1 s2 :
  exec c l1 s = Some s1 → exec c l2 s1 = Some s2 →
  exec c (l1 ++ l2) s = Some s2.
Proof. intros H1 H2. by rewrite exec_app, H1. Qed.

Section cleanup_alone.
Context (c : config).

Lemma cleanup_puts_stops k s :
  main_thread s = MCleanupStop k →
  ∃ s', exec c (replicate (S k) (Main false)) s = Some s' ∧
        main_thread s' = MJoinThreads2 ∧
        shutdown_flag s' = shutdown_flag s ∧
        queue s' = queue s ++ replicate k stop_signal ∧
        unfinished s' = (unfinished s + k)%nat ∧
        queue_work s s'.
Proof.
  revert s. induction k as [|k IH]; intros s Hm.
  - eexists. simpl. unfold main_step. rewrite Hm.
    split_and!; try done; simpl; by rewrite ?app_nil_r.
  - destruct (IH (set_main (MCleanupStop k) (put stop_signal s)) eq_refl)
      as (s' & He & Hm' & Hfl & Hq & Hu & Hw).
    exists s'. change (replicate (S (S k)) (Main false))
      with (Main false :: replicate (S k) (Main false)).
    simpl. unfold main_step at 1. rewrite Hm.
    split_and!; try done.
    + rewrite Hq. simpl. by rewrite <- app_assoc.
    + rewrite Hu. simpl. lia.
Qed.

Lemma cleanup_drains s :
  main_thread s = MDrain → (length (queue s) ≤ unfinished s)%nat →
  ∃ s', exec c (replicate (S (length (queue s))) (Main false)) s = Some s' ∧
        main_thread s' = MCleanupStop (Z.to_nat (num_workers c)) ∧
        shutdown_flag s' = shutdown_flag s ∧
        queue s' = [] ∧
        unfinished s' = (unfinished s - length (queue s))%nat ∧
        queue_work s s'.
Proof.
  remember (queue s) as l eqn:Hl. revert s Hl.
  induction l as [|t l IH]; intros s Hl Hm Hlen.
  - eexists. simpl. unfold main_step. rewrite Hm, <- Hl.
    split_and!; try done; simpl; lia.
  - simpl in Hlen. destruct (unfinished s) as [|n] eqn:Hn; [lia|].
    destruct (IH (set_main MDrain (set_unfinished n (set_queue l s))))
      as (s' & He & Hm' & Hfl & Hq & Hu & Hw); [done|done|simpl; lia|].
    exists s'.
    change (replicate (S (length (t :: l))) (Main false))
      with (Main false :: replicate (S (length l)) (Main false)).
    simpl. unfold main_step at 1. rewrite Hm, <- Hl.
    unfold task_done. simpl. rewrite Hn. simpl.
    split_and!; try done; rewrite ?Hu; simpl; lia.
Qed.

End cleanup_alone.

(** X2.  [cleanup], run without interference from the workers, sets the
    shutdown flag, takes every queued task off the queue and acknowledges
    it, and leaves exactly one stop signal per worker on the queue (none
    when [num_workers] is not positive).  It touches neither the output
    file nor [results] nor the workers. *)
Theorem X2_cleanup_drains_and_signals c s :
  reachable c s →
  main_thread s = MCleanup →
  let n := Z.to_nat (num_workers c) in
  ∃ s', exec c (replicate (length (queue s) + n + 3) (Main false)) s = Some s' ∧
        main_thread s' = MJoinThreads2 ∧
        shutdown_flag s' = true ∧
        queue s' = replicate n stop_signal ∧
        unfinished s' = (unfinished s - length (queue s) + n)%nat ∧
        sink s' = sink s ∧ results s' = results s ∧ workers s' = workers s.
Proof.
  intros Hr Hm n. pose proof (queue_below_unfinished c s Hr) as Hlen.
  set (s1 := set_main MDrain (set_flag true s)).
  destruct (cleanup_drains c s1 eq_refl Hlen)
    as (s2 & He2 & Hm2 & Hfl2 & Hq2 & Hu2 & Hw2).
  destruct (cleanup_puts_stops c n s2 Hm2)
    as (s3 & He3 & Hm3 & Hfl3 & Hq3 & Hu3 & Hw3).
  exists s3.
  assert (replicate (length (queue s) + n + 3) (Main false)
          = [Main false] ++ replicate (S (length (queue s1))) (Main false)
              ++ replicate (S n) (Main false)) as ->.
  { change [Main false] with (replicate 1 (Main false)).
    rewrite <- !replicate_add. f_equal. simpl. lia. }
  assert (exec c [Main false] s = Some s1) as He1.
  { simpl. unfold main_step. by rewrite Hm. }
  destruct Hw2 as (Hs2 & Hr2 & Hk2 & _), Hw3 as (Hs3 & Hr3 & Hk3 & _).
  split_and!.
  - eapply exec_app_Some; [exact He1|]. by eapply exec_app_Some.
  - done.
  - by rewrite Hfl3, Hfl2.
  - by rewrite Hq3, Hq2.
  - rewrite Hu3, Hu2. done.
  - by rewrite Hs3, Hs2.
  - by rewrite Hr3, Hr2.
  - by rewrite Hk3, Hk2.
Qed.

(** The seed's two children are queued when the interrupt arrives. *)
Lemma X2_witness :
  ∃ s, exec (rust_config 5) (seed_round ++ [Main true])
         (initial (rust_config 5)) = Some s ∧
       length (queue s) = 2%nat ∧
       ∃ s', exec (rust_config 5) (replicate (length (queue s) + 2 + 3)
                                     (Main false)) s = Some s' ∧
             main_thread s' = MJoinThreads2 ∧
             shutdown_flag s' = true ∧
             queue s' = replicate 2 stop_signal ∧
             unfinished s' = (unfinished s - length (queue s) + 2)%nat ∧
             sink s' = sink s ∧ results s' = results s ∧
             workers s' = workers s.
Proof.
  destruct (exec (rust_config 5) (seed_round ++ [Main true])
              (initial (rust_config 5))) as [s|] eqn:He;
    [|by vm_compute in He].
  assert (length (queue s) = 2%nat ∧ main_thread s = MCleanup) as [Hq Hm].
  { vm_compute in He. by injection He as <-. }
  exists s. split; [done|]. split; [done|].
  apply (X2_cleanup_drains_and_signals (rust_config 5) s); [|done].
  eapply reachable_exec; [apply reachable_initial|exact He].
Defined.

(** *** Depths *)

Lemma depth_inv_reachable c s : reachable c s → depth_inv c s.
Proof.
  revert s. apply reachable_ind.
  - unfold depth_inv; simpl. split_and!.
    + apply Forall_singleton. simpl. lia.
    + by apply Forall_replicate.
    + intros x d H. by apply elem_of_nil in H.
    + intros q d H. by apply elem_of_nil in H.
  - intros s s' _ (Hq & Hw & Hch & Hf) Hstep. unfold depth_inv.
    step_cases Hstep; rewrite ?record_spec; simpl;
      try worker_fact Hi; know_queue;
      repeat match goal with
             | H : Forall _ (_ :: _) |- _ => apply Forall_cons in H as [? ?]
             end;
      (split_and!;
       [try done
       |try (apply Forall_insert; [done|simpl]); try done
       |try done|try done]);
      try (destruct (shutdown_flag s); done);
      try (destruct (queue_empty s || shutdown_flag s); done);
      try (apply Forall_app; split; [done|apply Forall_singleton; simpl; lia]).
    + simpl in *.
      match goal with H : (_ <=? _) = false |- _ => apply Z.leb_gt in H end.
      lia.
    + intros q' d'. rewrite elem_of_app, list_elem_of_singleton.
      intros [?|[= -> ->]]; [by eapply Hf|done].
    + apply Forall_app. split; [done|].
      apply Forall_fmap, Forall_forall. intros x _. simpl. lia.
    + intros x d'. rewrite elem_of_app, list_elem_of_fmap.
      intros [?|(y & [= -> ->] & _)]; [by eapply Hch|lia].
Qed.

(** X5.  Depths stay within bounds.  Every queued task has a depth
    between 0 and [max_depth] (0 when [max_depth] is negative), every
    child task was put at a depth between 1 and [max_depth], and every
    lookup was made for a depth from 0 below [max_depth]: a task is never
    created more than one level beyond the last level that is looked up. *)
Theorem X5_depths_are_bounded c s :
  reachable c s →
  (∀ t, t ∈ queue s → 0 ≤ t.2 ≤ Z.max 0 (max_depth c)) ∧
  (∀ x d, (x, d) ∈ children s → 1 ≤ d ≤ max_depth c) ∧
  (∀ q d, (q, d) ∈ fetched s → 0 ≤ d < max_depth c).
Proof.
  intros Hr. destruct (depth_inv_reachable c s Hr) as (Hq & _ & Hch & Hf).
  split_and!; [|done|done].
  intros t Ht. by apply (proj1 (Forall_forall _ _) Hq).
Qed.

(** With [max_depth] 1 the children of the seed sit at the limit. *)
Lemma X5_witness :
  ∃ s, exec (rust_config 1) seed_round (initial (rust_config 1)) = Some s ∧
       queue s = [(Some "rust lang", 1); (Some "rustacean", 1)] ∧
       (∀ t, t ∈ queue s → 0 ≤ t.2 ≤ Z.max 0 1) ∧
       (∀ x d, (x, d) ∈ children s → 1 ≤ d ≤ 1) ∧
       (∀ q d, (q, d) ∈ fetched s → 0 ≤ d < 1).
Proof.
  destruct (exec (rust_config 1) seed_round (initial (rust_config 1)))
    as [s|] eqn:He; [|by vm_compute in He].
  exists s. split; [done|]. split.
  - vm_compute in He. by injection He as <-.
  - apply (X5_depths_are_bounded (rust_config 1) s).
    eapply reachable_exec; [apply reachable_initial|exact He].
Defined.

(** *** Marked queries *)

Lemma marked_inv_reachable c s : reachable c s → marked_inv s.
Proof.
  revert s. apply reachable_ind.
  - by unfold marked_inv.
  - intros s s' _ Hp Hstep. unfold marked_inv in *.
    step_cases Hstep; rewrite ?record_spec; simpl; try done.
    rewrite fmap_app, list_to_set_app_L, Hp. simpl. set_solver.
Qed.

(** X6.  [processed_queries] is the set of queries that were looked up:
    a task that is skipped, dropped by the depth test or drained by
    [cleanup] is never marked, and a query is marked only on the way into
    its lookup.  The set has as many elements as lookups were made. *)
Theorem X6_marked_are_the_lookups c s :
  reachable c s →
  processed_queries s = list_to_set (fetched s).*1 ∧
  size (processed_queries s) = length (fetched s).
Proof.
  intros Hr. pose proof (marked_inv_reachable c s Hr) as Hp.
  destruct (claim_inv_reachable c s Hr) as [_ _ _ _ [Hnd _]].
  split; [done|].
  rewrite Hp, size_list_to_set by done. by rewrite length_fmap.
Qed.

Lemma X6_witness :
  ∃ s, exec (rust_config 1) (seed_round ++ moves 1 3)
         (initial (rust_config 1)) = Some s ∧
       fetched s = [("rust", 0)] ∧
       workers s !! 1%nat = Some WIdle ∧
       processed_queries s = list_to_set (fetched s).*1 ∧
       size (processed_queries s) = length (fetched s).
Proof.
  destruct (exec (rust_config 1) (seed_round ++ moves 1 3)
              (initial (rust_config 1))) as [s|] eqn:He;
    [|by vm_compute in He].
  exists s. split; [done|]. split; [|split].
  - vm_compute in He. by injection He as <-.
  - vm_compute in He. by injection He as <-.
  - apply (X6_marked_are_the_lookups (rust_config 1) s).
    eapply reachable_exec; [apply reachable_initial|exact He].
Defined.

(** *** Where results come from *)

Lemma sourced_mono c F R F' R' w :
  F ⊆ F' → R ⊆ R' → sourced c F R w → sourced c F' R' w.
Proof.
  intros HF HR. destruct w; simpl; try done.
  - intros H. by apply HF.
  - intros (r & Hr & Hg). exists r. split; [by apply HR|done].
Qed.

Lemma source_inv_reachable c s : reachable c s → source_inv c s.
Proof.
  revert s. apply reachable_ind.
  - unfold source_inv; simpl. split_and!.
    + by apply Forall_replicate.
    + intros q d r H. by apply elem_of_nil in H.
    + intros x d H. by apply elem_of_nil in H.
  - intros s s' _ (Hw & Hr & Hch) Hstep. unfold source_inv.
    step_cases Hstep; rewrite ?record_spec; simpl;
      try worker_fact Hi;
      try (split_and!; [apply Forall_insert; [done|simpl]|done|done];
           try done;
           try (destruct (shutdown_flag s); done);
           try (destruct (queue_empty s || shutdown_flag s); done); fail);
      try done.
    + (* line 125: the lookup is logged *)
      split_and!.
      * apply Forall_insert.
        -- eapply Forall_impl; [exact Hw|]. intros w.
           apply sourced_mono; [set_solver|done].
        -- simpl. set_solver.
      * intros q' d' r' Hin. apply elem_of_app. left. by eapply Hr.
      * done.
    + (* the answer arrives and is a list *)
      split_and!.
      * apply Forall_insert.
        -- eapply Forall_impl; [exact Hw|]. intros w.
           apply sourced_mono; [done|set_solver].
        -- simpl. exists r. split; [set_solver|done].
      * intros q' d' r'. rewrite elem_of_app, list_elem_of_singleton.
        intros [?|[= -> -> ->]]; [by eapply Hr|done].
      * intros x d' Hx. destruct (Hch x d' Hx) as (q' & d0 & r' & l & ? & ?).
        exists q', d0, r', l. split; [set_solver|done].
    + (* the lookup raised *)
      split_and!.
      * apply Forall_insert; [|done].
        eapply Forall_impl; [exact Hw|]. intros w.
        apply sourced_mono; [done|set_solver].
      * intros q' d' r'. rewrite elem_of_app, list_elem_of_singleton.
        intros [?|[= -> -> ->]]; [by eapply Hr|done].
      * intros x d' Hx. destruct (Hch x d' Hx) as (q' & d0 & r' & l & ? & ?).
        exists q', d0, r', l. split; [set_solver|done].
    + (* the recording block *)
      split_and!; [by apply Forall_insert|done|].
      intros x d'. rewrite elem_of_app, list_elem_of_fmap.
      intros [Hx|(y & [= -> ->] & Hy)]; [by apply Hch|].
      destruct Hi as (r' & Hr' & Hg). apply fresh_spec in Hy as [Hy _].
      by exists q, d, r', suggestions.
Qed.

(** X7.  Every string that [save_suggestion] wrote to the output file is
    a suggestion that some lookup returned: the seed keyword itself is
    written only if the provider suggests it.  The string's child task
    sits one level below the task that was looked up, and that lookup was
    logged.  (The statement is about the strings written, not about the
    lines of the file: see [save_suggestion].) *)
Theorem X7_results_come_from_lookups c s x :
  reachable c s →
  x ∈ sink s →
  ∃ q d r l, (q, d) ∈ fetched s ∧ (q, d, r) ∈ replies s ∧
             (get_suggestions c q r).1 = Returns l ∧
             x ∈ l ∧ (x, d + 1) ∈ children s.
Proof.
  intros Hr Hx. destruct (source_inv_reachable c s Hr) as (_ & Hrep & Hch).
  destruct (sink_inv_reachable c s Hr) as (_ & Hsink & _).
  rewrite <- Hsink in Hx. apply list_elem_of_fmap in Hx as ([x' d'] & -> & Hin).
  destruct (Hch _ _ Hin) as (q & d & r & l & Hr' & Hg & Hl & ->).
  exists q, d, r, l. split_and!; try done. by eapply Hrep.
Qed.

Lemma X7_witness :
  ∃ s, exec (rust_config 5) seed_round (initial (rust_config 5)) = Some s ∧
       "rustacean" ∈ sink s ∧
       ∃ q d r l, (q, d) ∈ fetched s ∧ (q, d, r) ∈ replies s ∧
                  (get_suggestions (rust_config 5) q r).1 = Returns l ∧
                  "rustacean" ∈ l ∧ ("rustacean", d + 1) ∈ children s.
Proof.
  destruct (exec (rust_config 5) seed_round (initial (rust_config 5)))
    as [s|] eqn:He; [|by vm_compute in He].
  assert ("rustacean" ∈ sink s) as Hin.
  { vm_compute in He. injection He as <-. simpl. set_solver. }
  exists s. split; [done|]. split; [done|].
  apply (X7_results_come_from_lookups (rust_config 5) s "rustacean"); [|done].
  eapply reachable_exec; [apply reachable_initial|exact He].
Defined.

(** *** The filter *)

Lemma is_prefix_spec k s :
  Str.is_prefix k s = true ↔ ∃ b, s = (k ++ b)%string.
Proof.
  revert s. induction k as [|a k IH]; intros s; simpl.
  - split; [by exists s|done].
  - destruct s as [|b s]; simpl.
    + split; [done|]. by intros (? & ?).
    + destruct (Ascii.eqb a b) eqn:Hab.
      * apply Ascii.eqb_eq in Hab as ->. rewrite IH. split.
        -- intros (t & ->). by exists t.
        -- intros (t & [= ->]). by exists t.
      * split; [done|]. intros (t & [= -> _]).
        by rewrite Ascii.eqb_refl in Hab.
Qed.

Lemma contains_spec k s :
  Str.contains k s = true ↔ ∃ a b, s = (a ++ k ++ b)%string.
Proof.
  split.
  - induction s as [|ch s IH]; simpl.
    + destruct (Str.is_prefix k "") eqn:Hp; [|done]. intros _.
      apply is_prefix_spec in Hp as (b & Hb). by exists ""%string, b.
    + destruct (Str.is_prefix k (String ch s)) eqn:Hp.
      * intros _. apply is_prefix_spec in Hp as (b & Hb). by exists ""%string, b.
      * intros (a & b & ->)%IH. by exists (String ch a), b.
  - intros (a & b & ->). induction a as [|ch a IH]; simpl.
    + assert (Str.is_prefix k (k ++ b) = true) as Hp.
      { apply is_prefix_spec. by exists b. }
      destruct (k ++ b)%string; simpl in *; by rewrite Hp.
    + by destruct (Str.is_prefix k (String ch (a ++ k ++ b))).
Qed.

(** X8.  What the filter of line 90 means: a candidate is kept exactly
    when its lowered text has the lowered keyword as a contiguous part. *)
Theorem X8_filter_is_substring_test K dir nw md ts tq q status data l :
  raise_for_status status = false →
  (get_suggestions (SuggestionWorker_init K dir nw md ts tq) q
     (Response status (Xml data))).1 = Returns l →
  ∀ x, x ∈ l ↔
       Some x ∈ data ∧
       ∃ a b, Str.lower x = (a ++ Str.lower K ++ b)%string.
Proof.
  intros Hst. unfold get_suggestions. rewrite Hst. simpl. intros Hk x.
  rewrite (keep_matching_spec _ _ _ Hk x). by rewrite contains_spec.
Qed.

Lemma X8_witness :
  raise_for_status 200 = false ∧
  (get_suggestions (rust_config 5) "rust" rust_reply).1
    = Returns ["rust lang"; "rustacean"; "rust lang"] ∧
  ∀ x, x ∈ ["rust lang"; "rustacean"; "rust lang"] ↔
       Some x ∈ [Some "rust lang"; Some "go lang"; Some "rustacean";
                 Some "rust lang"] ∧
       ∃ a b, Str.lower x = (a ++ Str.lower "Rust" ++ b)%string.
Proof.
  split; [reflexivity|]. split; [reflexivity|].
  apply (X8_filter_is_substring_test
           "Rust" "results" 2 5 "20240101_120000" true "rust" 200);
    reflexivity.
Defined.

Lemma keep_matching_raises kw data :
  keep_matching kw data = Raises AttributeError ↔ None ∈ data.
Proof.
  induction data as [|[y|] data IH]; simpl.
  - split; [done|]. intros H. by apply elem_of_nil in H.
  - rewrite elem_of_cons. destruct (keep_matching kw data) as [l|[]].
    + split; [done|]. intros [?|H]; [done|]. by apply IH in H.
    + split; [|done]. intros _. right. by apply IH.
  - split; [|done]. intros _. by left.
Qed.

Lemma keep_matching_filter kw xs :
  keep_matching kw (Some <$> xs)
  = Returns (filter (λ x, Str.contains kw (Str.lower x) = true) xs).
Proof.
  induction xs as [|x xs IH]; csimpl; [done|].
  rewrite IH. rewrite filter_cons.
  destruct (Str.contains kw (Str.lower x)) eqn:Hx.
  - by rewrite decide_True.
  - by rewrite decide_False.
Qed.

(** X9.  How the lookup treats a reply that parses.  It raises
    [AttributeError] exactly when some suggestion element has no [data]
    attribute, wherever the element stands and whatever the others hold.
    When every element has its text, the lookup returns the matching
    texts in the provider's order, repeated ones included, and prints
    nothing. *)
Theorem X9_parsed_reply c q status data :
  raise_for_status status = false →
  ((get_suggestions c q (Response status (Xml data))).1
     = Raises AttributeError ↔ None ∈ data) ∧
  ∀ xs, data = Some <$> xs →
        get_suggestions c q (Response status (Xml data))
        = (Returns
             (filter (λ x, Str.contains (main_keyword c) (Str.lower x) = true)
                xs), []).
Proof.
  intros Hst. unfold get_suggestions. rewrite Hst. simpl. split.
  - apply keep_matching_raises.
  - intros xs ->. by rewrite keep_matching_filter.
Qed.

Lemma X9_witness :
  ((get_suggestions (rust_config 5) "rust"
      (Response 200 (Xml [Some "rust lang"; None]))).1
     = Raises AttributeError ↔ None ∈ [Some "rust lang"; None]) ∧
  ∀ xs, [Some "rust lang"; None] = Some <$> xs →
        get_suggestions (rust_config 5) "rust"
          (Response 200 (Xml [Some "rust lang"; None]))
        = (Returns
             (filter (λ x, Str.contains (main_keyword (rust_config 5))
                             (Str.lower x) = true) xs), []).
Proof.
  apply (X9_parsed_reply (rust_config 5) "rust" 200 [Some "rust lang"; None]).
  reflexivity.
Defined.

(** *** Stopping after an interrupt *)

Lemma exec_grows c ls s s' : exec c ls s = Some s' → grows s s'.
Proof.
  revert s. induction ls as [|l ls IH]; intros s; simpl.
  - intros [= <-]. apply grows_refl.
  - destruct (step_fn c l s) as [s1|] eqn:Hl; [|done].
    intros He. eapply grows_trans; [by eapply grows_step|by apply IH].
Qed.

Ltac worker_cases H :=
  unfold worker_step in H;
  repeat (case_match; simplify_eq; try done);
  unfold task_done in *;
  repeat match goal with
         | H : _ <$> _ = Some _ |- _ =>
             apply fmap_Some in H as (? & ? & ->)
         end;
  repeat (case_match; simplify_eq; try done).

(** One step of a worker changes no other worker's position, leaves the
    main thread and the flag as they are and, with the flag set, brings
    the worker closer to its exit. *)
Lemma worker_step_shape c i r s s' w :
  worker_step c i r s = Some s' →
  workers s !! i = Some w →
  ∃ w', workers s' !! i = Some w' ∧
        main_thread s' = main_thread s ∧
        shutdown_flag s' = shutdown_flag s ∧
        (∀ j, j ≠ i → workers s' !! j = workers s !! j) ∧
        (shutdown_flag s = true → (rank w' < rank w)%nat).
Proof.
  intros Hstep Hi. pose proof (lookup_lt_Some _ _ _ Hi) as Hlt.
  worker_cases Hstep; rewrite ?record_spec; simpl;
    (eexists; split_and!;
     [by apply list_lookup_insert_eq
     |done|done
     |by intros j Hj; apply list_lookup_insert_ne
     |]);
    simpl; intros Hfl; rewrite ?Hfl, ?orb_true_r in *; simpl;
    try done; try congruence; lia.
Qed.

Lemma worker_reaches_stop c r i n s w :
  (rank w ≤ n)%nat →
  reachable c s → shutdown_flag s = true → exited s = false →
  workers s !! i = Some w →
  ∃ k s', exec c (replicate k (Worker i r)) s = Some s' ∧
          (k ≤ rank w)%nat ∧
          reachable c s' ∧ shutdown_flag s' = true ∧
          main_thread s' = main_thread s ∧
          workers s' !! i = Some WStopped ∧
          ∀ j, j ≠ i → workers s' !! j = workers s !! j.
Proof.
  revert s w. induction n as [|n IH]; intros s w Hn Hr Hfl Hex Hi.
  - destruct w; simpl in Hn; try lia.
    exists 0%nat, s. by split_and!.
  - assert (w = WStopped ∨ w ≠ WStopped) as [->|Hw]
      by (destruct w; (by left) || (by right)).
    { exists 0%nat, s. simpl. split_and!; try done. }
    destruct (worker_can_step c s i w r Hr Hex Hi Hw) as (s1 & H1).
    destruct (worker_step_shape c i r s s1 w H1 Hi)
      as (w1 & Hi1 & Hm1 & Hfl1 & Hfr1 & Hrank).
    specialize (Hrank Hfl).
    assert (reachable c s1) as Hr1.
    { eapply reachable_step; [done|]. by exists (Worker i r). }
    assert (exited s1 = false) as Hex1.
    { unfold exited in *. by rewrite Hm1. }
    destruct (IH s1 w1) as (k & s' & He & Hk & Hr' & Hfl' & Hm' & Hi' & Hfr');
      [lia|done|congruence|done|done|].
    exists (S k), s'. simpl. rewrite H1.
    split_and!; try done; [lia|congruence|].
    intros j Hj. by rewrite Hfr', Hfr1.
Qed.

Lemma workers_reach_stop c (r : reply) j s :
  (j ≤ length (workers s))%nat →
  reachable c s → shutdown_flag s = true → exited s = false →
  ∃ ls s', exec c ls s = Some s' ∧
           workers_only r ls ∧ (length ls ≤ 7 * j)%nat ∧
           reachable c s' ∧ shutdown_flag s' = true ∧
           main_thread s' = main_thread s ∧
           length (workers s') = length (workers s) ∧
           ∀ i, (i < j)%nat → workers s' !! i = Some WStopped.
Proof.
  induction j as [|j IH]; intros Hj Hr Hfl Hex.
  - exists [], s.
    split_and!;
      [done|by constructor|simpl; lia|done|done|done|done|intros; lia].
  - destruct IH as (ls & s1 & He & Hw & Hlen & Hr1 & Hfl1 & Hm1 & Hl1 & Hst);
      [lia|done|done|done|].
    assert (exited s1 = false) as Hex1.
    { unfold exited in *. by rewrite Hm1. }
    destruct (lookup_lt_is_Some_2 (workers s1) j) as [w Hi]; [lia|].
    destruct (worker_reaches_stop c r j (rank w) s1 w)
      as (k & s' & He' & Hk & Hr' & Hfl' & Hm' & Hi' & Hfr');
      [done|done|done|done|done|].
    exists (ls ++ replicate k (Worker j r)), s'.
    split_and!; try done.
    + by eapply exec_app_Some.
    + apply Forall_app. split; [done|]. apply Forall_replicate. by exists j.
    + rewrite length_app, length_replicate.
      assert (rank w ≤ 7)%nat by (destruct w; simpl; lia). lia.
    + congruence.
    + pose proof (exec_grows _ _ _ _ He') as (_ & _ & _ & _ & _ & _ & Hl').
      congruence.
    + intros i Hlt. destruct (decide (i = j)) as [->|Hne]; [done|].
      rewrite Hfr' by done. apply Hst. lia.
Qed.

(** X10.  Once [cleanup] has set the shutdown flag every worker stops
    of its own accord, whatever the provider answers: it finishes the
    task it holds, or the one it was taking from the queue, and leaves
    its loop at the next test of the flag, after at most seven steps of
    its own.  No stop signal is needed for that, and the main thread is
    not involved. *)
Theorem X10_workers_stop_after_interrupt c s (r : reply) :
  reachable c s →
  shutdown_flag s = true →
  exited s = false →
  ∃ ls s', exec c ls s = Some s' ∧
           workers_only r ls ∧
           (length ls ≤ 7 * length (workers s))%nat ∧
           Forall (λ w, w = WStopped) (workers s') ∧
           main_thread s' = main_thread s ∧
           shutdown_flag s' = true.
Proof.
  intros Hr Hfl Hex.
  destruct (workers_reach_stop c r (length (workers s)) s)
    as (ls & s' & He & Hw & Hlen & _ & Hfl' & Hm' & Hl' & Hst);
    [lia|done|done|done|].
  exists ls, s'. split_and!; try done.
  apply Forall_lookup_2. intros i w Hi.
  pose proof (lookup_lt_Some _ _ _ Hi) as Hlt. rewrite Hl' in Hlt.
  rewrite (Hst i Hlt) in Hi. by injection Hi as <-.
Qed.

(** Worker 1 is inside the lookup of "rust lang" when the interrupt
    arrives and [cleanup] sets the flag. *)
Lemma X10_witness :
  ∃ s, exec (rust_config 5) (busy_round ++ [Main true; Main false])
         (initial (rust_config 5)) = Some s ∧
       workers s = [WIdle; WFetch "rust lang" 1] ∧
       ∃ ls s', exec (rust_config 5) ls s = Some s' ∧
                workers_only rust_reply ls ∧
                (length ls ≤ 7 * length (workers s))%nat ∧
                Forall (λ w, w = WStopped) (workers s') ∧
                main_thread s' = main_thread s ∧
                shutdown_flag s' = true.
Proof.
  destruct (exec (rust_config 5) (busy_round ++ [Main true; Main false])
              (initial (rust_config 5))) as [s|] eqn:He;
    [|by vm_compute in He].
  assert (workers s = [WIdle; WFetch "rust lang" 1] ∧
          shutdown_flag s = true ∧ exited s = false) as (Hw & Hfl & Hex).
  { vm_compute in He. by injection He as <-. }
  exists s. split; [done|]. split; [done|].
  apply (X10_workers_stop_after_interrupt (rust_config 5) s rust_reply);
    [|done|done].
  eapply reachable_exec; [apply reachable_initial|exact He].
Defined.

(** *** Stopping when the queue has drained *)

Lemma worker_step_main_flag c i r s s' :
  worker_step c i r s = Some s' →
  main_thread s' = main_thread s ∧ shutdown_flag s' = shutdown_flag s.
Proof.
  intros Hstep. by worker_cases Hstep; rewrite ?record_spec; simpl.
Qed.

Lemma main_step_workers c b s s' :
  main_step c b s = Some s' →
  workers s' = workers s ∧ sink s' = sink s ∧ results s' = results s.
Proof.
  unfold main_step, task_done. intros Hstep.
  repeat (case_match; simplify_eq/=; try done).
Qed.

Lemma flag_inv_reachable c s : reachable c s → flag_inv s.
Proof.
  revert s. apply reachable_ind; [done|].
  intros s s' _ IH [[i r|b] Hl]; simpl in Hl; unfold flag_inv in *.
  - destruct (worker_step_main_flag c i r s s' Hl) as (Hm & Hfl).
    unfold past_cleanup in *. by rewrite Hm, Hfl.
  - unfold past_cleanup in *. unfold main_step, task_done in Hl.
    destruct (main_thread s) as [|[|k]| | | |[|k]| | |] eqn:Hm, b;
      repeat (case_match; simplify_eq/=; try done); auto.
Qed.

Lemma workers_length_reachable c s :
  reachable c s → length (workers s) = Z.to_nat (num_workers c).
Proof.
  revert s. apply reachable_ind.
  - simpl. apply length_replicate.
  - intros s s' _ IH [l Hl].
    destruct (grows_step c l s s' Hl) as (_ & _ & _ & _ & _ & _ & Hlen).
    congruence.
Qed.

Lemma natural_puts_stops c k s :
  main_thread s = MPutStop k →
  ∃ s', exec c (replicate (S k) (Main false)) s = Some s' ∧
        main_thread s' = MJoinThreads ∧
        shutdown_flag s' = shutdown_flag s ∧
        queue s' = queue s ++ replicate k stop_signal ∧
        unfinished s' = (unfinished s + k)%nat ∧
        queue_work s s'.
Proof.
  revert s. induction k as [|k IH]; intros s Hm.
  - eexists. simpl. unfold main_step. rewrite Hm.
    split_and!; try done; simpl; by rewrite ?app_nil_r.
  - destruct (IH (set_main (MPutStop k) (put stop_signal s)) eq_refl)
      as (s' & He & Hm' & Hfl & Hq & Hu & Hw).
    exists s'. change (replicate (S (S k)) (Main false))
      with (Main false :: replicate (S k) (Main false)).
    simpl. unfold main_step at 1. rewrite Hm.
    split_and!; try done.
    + rewrite Hq. simpl. by rewrite <- app_assoc.
    + rewrite Hu. simpl. lia.
Qed.

(** A worker that waits for a task takes the stop signal at the head of
    the queue, acknowledges it and stops. *)
Lemma worker_takes_stop c r i m s w :
  signalled (S m) s →
  workers s !! i = Some w → w ≠ WStopped →
  ∃ k s', exec c (replicate k (Worker i r)) s = Some s' ∧
          signalled m s' ∧
          workers s' !! i = Some WStopped ∧
          (∀ j, j ≠ i → workers s' !! j = workers s !! j) ∧
          length (workers s') = length (workers s) ∧
          sink s' = sink s ∧ results s' = results s ∧ stdout s' = stdout s.
Proof.
  intros (Hm & Hfl & Hq & Hu & Hhold) Hi Hw.
  pose proof (lookup_lt_Some _ _ _ Hi) as Hlt.
  pose proof (Hhold i w Hi) as Hw0.
  assert (exited s = false) as Hex by (unfold exited; by rewrite Hm).
  set (s1 := set_worker i WGet s).
  set (s2 := set_worker i (WGot stop_signal)
               (set_queue (replicate m stop_signal) s1)).
  set (s3 := set_worker i WStopped (set_unfinished m s2)).
  assert (worker_step c i r s1 = Some s2) as H12.
  { unfold worker_step. change (exited s1) with (exited s). rewrite Hex.
    simpl. rewrite list_lookup_insert_eq by done. by rewrite Hq. }
  assert (worker_step c i r s2 = Some s3) as H23.
  { unfold worker_step. change (exited s2) with (exited s). rewrite Hex.
    simpl. rewrite list_lookup_insert_eq by (by rewrite length_insert).
    unfold stop_signal, task_done. simpl. by rewrite Hu. }
  assert (signalled m s3 ∧ workers s3 !! i = Some WStopped ∧
          (∀ j, j ≠ i → workers s3 !! j = workers s !! j) ∧
          length (workers s3) = length (workers s) ∧
          sink s3 = sink s ∧ results s3 = results s ∧ stdout s3 = stdout s)
    as Hfinal.
  { assert (workers s3 !! i = Some WStopped) as Hi3.
    { simpl. apply list_lookup_insert_eq. by rewrite !length_insert. }
    assert (∀ j, j ≠ i → workers s3 !! j = workers s !! j) as Hfr.
    { intros j Hj. simpl. by rewrite !list_lookup_insert_ne. }
    split_and!; try done.
    - split_and!; try done. intros j w' Hj.
      destruct (decide (j = i)) as [->|Hne].
      + rewrite Hi3 in Hj. by injection Hj as <-.
      + rewrite Hfr in Hj by done. by eapply Hhold.
    - simpl. by rewrite !length_insert. }
  destruct w; simpl in Hw0; try done.
  - (* at the top of the loop *)
    exists 3%nat, s3. split; [|done]. simpl.
    assert (worker_step c i r s = Some s1) as ->.
    { unfold worker_step. by rewrite Hex, Hi, Hfl. }
    by rewrite H12, H23.
  - (* inside queue.get *)
    exists 2%nat, s3. split; [|done]. simpl.
    assert (worker_step c i r s = Some s2) as ->.
    { unfold worker_step. rewrite Hex, Hi, Hq. simpl.
      unfold s2, s1, set_worker. simpl.
      by rewrite list_insert_insert_eq. }
    by rewrite H23.
  - (* after a timeout: the queue is not empty, the loop goes on *)
    exists 4%nat, s3. split; [|done]. simpl.
    assert (worker_step c i r s = Some (set_worker i WIdle s)) as ->.
    { unfold worker_step, queue_empty. by rewrite Hex, Hi, Hq, Hfl. }
    assert (worker_step c i r (set_worker i WIdle s) = Some s1) as ->.
    { unfold worker_step.
      change (exited (set_worker i WIdle s)) with (exited s). rewrite Hex.
      simpl. rewrite list_lookup_insert_eq by done. rewrite Hfl.
      unfold s1, set_worker. simpl. by rewrite list_insert_insert_eq. }
    by rewrite H12, H23.
Qed.

Lemma workers_take_stops c (r : reply) j m s :
  (j ≤ length (workers s))%nat →
  signalled m s → (length (workers s) ≤ m)%nat →
  ∃ ls s' m', exec c ls s = Some s' ∧ workers_only r ls ∧
              signalled m' s' ∧ (m ≤ m' + j)%nat ∧
              length (workers s') = length (workers s) ∧
              (∀ i, (i < j)%nat → workers s' !! i = Some WStopped) ∧
              sink s' = sink s ∧ results s' = results s ∧
              stdout s' = stdout s.
Proof.
  intros Hj Hsig Hm. induction j as [|j IH].
  - exists [], s, m.
    split_and!; try done; [by constructor|lia|intros; lia].
  - destruct IH as (ls & s1 & m1 & He & Hw & Hsig1 & Hm1 & Hl1 & Hst
                    & Hsink & Hres & Hout); [lia|].
    destruct (lookup_lt_is_Some_2 (workers s1) j) as [w Hi]; [lia|].
    assert (w = WStopped ∨ w ≠ WStopped) as [->|Hne]
      by (destruct w; (by left) || (by right)).
    + exists ls, s1, m1. split_and!; try done; [lia|].
      intros i Hlt. destruct (decide (i = j)) as [->|?]; [done|].
      apply Hst. lia.
    + destruct m1 as [|m2]; [lia|].
      destruct (worker_takes_stop c r j m2 s1 w Hsig1 Hi Hne)
        as (k & s2 & He2 & Hsig2 & Hi2 & Hfr & Hl2 & Hsink2 & Hres2 & Hout2).
      exists (ls ++ replicate k (Worker j r)), s2, m2.
      split_and!; try done; try congruence.
      * by eapply exec_app_Some.
      * apply Forall_app. split; [done|]. apply Forall_replicate. by exists j.
      * lia.
      * intros i Hlt. destruct (decide (i = j)) as [->|?]; [done|].
        rewrite Hfr by done. apply Hst. lia.
Qed.

(** X11.  A run that ends by itself can stop every worker.  When
    [queue.join()] returns, the flag is clear and the main thread puts
    one stop signal per worker; every worker that has not left its loop
    on a timeout takes one signal, acknowledges it and stops; the main
    thread then prints the summary.  The signals that are left over (one
    for each worker that had stopped before) stay on the queue, and the
    output file is the one that was there when [queue.join()] returned. *)
Theorem X11_natural_shutdown c s (r : reply) :
  reachable c s →
  main_thread s = MJoin →
  unfinished s = 0%nat →
  ∃ ls s', exec c ls s = Some s' ∧
           Forall (λ l, l ≠ Main true) ls ∧
           exited s' = true ∧
           shutdown_flag s' = false ∧
           Forall (λ w, w = WStopped) (workers s') ∧
           Forall (λ t, t = stop_signal) (queue s') ∧
           sink s' = sink s ∧ results s' = results s ∧
           ends_with_summary c s'.
Proof.
  intros Hr Hm Hz. set (n := Z.to_nat (num_workers c)).
  pose proof (accounting_reachable c s Hr) as Hacc.
  pose proof (workers_length_reachable c s Hr) as Hlen.
  assert (shutdown_flag s = false) as Hfl.
  { destruct (shutdown_flag s) eqn:Hfl; [|done].
    pose proof (flag_inv_reachable c s Hr Hfl) as Hp.
    unfold past_cleanup in Hp. by rewrite Hm in Hp. }
  assert (queue s = []) as Hq.
  { unfold accounting in Hacc. rewrite Hz in Hacc.
    destruct (queue s); [done|simpl in Hacc; lia]. }
  set (s0 := set_main (MPutStop n) s).
  assert (exec c [Main false] s = Some s0) as He0.
  { simpl. unfold main_step. by rewrite Hm, Hz. }
  destruct (natural_puts_stops c n s0 eq_refl)
    as (s1 & He1 & Hm1 & Hfl1 & Hq1 & Hu1 & Hs1 & Hr1 & Hw1 & _ & _ & Ho1).
  assert (signalled n s1) as Hsig.
  { split_and!; try done.
    - by rewrite Hfl1.
    - rewrite Hq1. simpl. by rewrite Hq.
    - rewrite Hu1. simpl. by rewrite Hz.
    - intros i w Hi. rewrite Hw1 in Hi. simpl in Hi.
      pose proof (wsum_lookup holding _ _ _ Hi) as Hle.
      unfold accounting in Hacc. lia. }
  destruct (workers_take_stops c r (length (workers s1)) n s1)
    as (ls & s2 & m & He2 & Hwo & (Hm2 & Hfl2 & Hq2 & Hu2 & Hh2) & _ & Hl2
        & Hst & Hsink2 & Hres2 & Hout2); [lia|done| |].
  { rewrite Hw1. simpl. lia. }
  set (s3 := set_main MDone
               (prints [LSummary (size (results s2)); LSaved (output_file c)]
                  (set_main MFinally s2))).
  assert (exec c [Main false; Main false] s2 = Some s3) as He3.
  { simpl. unfold main_step at 1. rewrite Hm2. simpl.
    by unfold main_step. }
  exists ([Main false] ++ replicate (S n) (Main false) ++ ls
            ++ [Main false; Main false]), s3.
  split_and!.
  - eapply exec_app_Some; [exact He0|].
    eapply exec_app_Some; [exact He1|].
    by eapply exec_app_Some.
  - repeat (apply Forall_app; split); try (by repeat constructor).
    + by apply Forall_replicate.
    + eapply Forall_impl; [exact Hwo|]. by intros l (i & ->).
  - done.
  - done.
  - apply Forall_lookup_2. intros i w Hi. simpl in Hi.
    pose proof (lookup_lt_Some _ _ _ Hi) as Hlt. rewrite Hl2 in Hlt.
    rewrite (Hst i Hlt) in Hi. by injection Hi as <-.
  - simpl. rewrite Hq2. by apply Forall_replicate.
  - simpl. by rewrite Hsink2, Hs1.
  - simpl. by rewrite Hres2, Hr1.
  - eexists. simpl. done.
Qed.

(** The lookup of the seed has failed and the seed is acknowledged;
    worker 1 has not moved yet. *)
Lemma X11_witness :
  ∃ s, exec (rust_config 5) (moves 0 7) (initial (rust_config 5)) = Some s ∧
       workers s = [WIdle; WIdle] ∧
       ∃ ls s', exec (rust_config 5) ls s = Some s' ∧
                Forall (λ l, l ≠ Main true) ls ∧
                exited s' = true ∧
                shutdown_flag s' = false ∧
                Forall (λ w, w = WStopped) (workers s') ∧
                Forall (λ t, t = stop_signal) (queue s') ∧
                sink s' = sink s ∧ results s' = results s ∧
                ends_with_summary (rust_config 5) s'.
Proof.
  destruct (exec (rust_config 5) (moves 0 7) (initial (rust_config 5)))
    as [s|] eqn:He; [|by vm_compute in He].
  assert (workers s = [WIdle; WIdle] ∧ main_thread s = MJoin ∧
          unfinished s = 0%nat) as (Hw & Hm & Hz).
  { vm_compute in He. by injection He as <-. }
  exists s. split; [done|]. split; [done|].
  apply (X11_natural_shutdown (rust_config 5) s no_reply); [|done|done].
  eapply reachable_exec; [apply reachable_initial|exact He].
Defined.

(** *** The schedule matters *)

(** X12.  The output of a run that ends by itself is not determined by
    the provider's answers: it depends on the order in which the workers
    reach the lock.  A string is recorded with the depth of the first
    task whose answer is recorded with it; when a deeper task wins the
    race, the string can land on the last level and its own suggestions
    are never looked up.  Under [fork_provider] with [max_depth] 3, one
    worker alone persists "kz"; when the other worker overtakes it, "kx"
    is recorded at depth 3 and "kz" is never found. *)
Theorem X12_output_depends_on_schedule :
  ¬ (∀ (c : config) (provider : string → reply) (s1 s2 : state),
       reachable c s1 → reachable c s2 →
       completed s1 → completed s2 →
       answered_by provider s1 → answered_by provider s2 →
       ∀ x, x ∈ sink s1 → x ∈ sink s2).
Proof.
  intros H.
  destruct (exec fork_config in_turn (initial fork_config))
    as [s1|] eqn:He1; [|by vm_compute in He1].
  destruct (exec fork_config overtaken (initial fork_config))
    as [s2|] eqn:He2; [|by vm_compute in He2].
  assert (completed s1 ∧ answered_by fork_provider s1 ∧
          sink s1 = ["k1"; "ky"; "kx"; "k2"; "kz"]) as (Hc1 & Ha1 & Hs1).
  { clear He2 H. vm_compute in He1. injection He1 as <-.
    split_and!; [done| |done]. unfold answered_by; simpl.
    repeat constructor. }
  assert (completed s2 ∧ answered_by fork_provider s2 ∧
          sink s2 = ["k1"; "ky"; "k2"; "kx"]) as (Hc2 & Ha2 & Hs2).
  { clear He1 H Hc1 Ha1 Hs1. vm_compute in He2. injection He2 as <-.
    split_and!; [done| |done]. unfold answered_by; simpl.
    repeat constructor. }
  assert (reachable fork_config s1) as Hr1.
  { eapply reachable_exec; [apply reachable_initial|exact He1]. }
  assert (reachable fork_config s2) as Hr2.
  { eapply reachable_exec; [apply reachable_initial|exact He2]. }
  specialize (H fork_config fork_provider s1 s2 Hr1 Hr2 Hc1 Hc2 Ha1 Ha2 "kz").
  rewrite Hs1, Hs2 in H.
  assert ("kz" ∈ ["k1"; "ky"; "k2"; "kx"]) as Habs.
  { apply H. rewrite !elem_of_cons. do 4 right. by left. }
  clear - Habs. rewrite !elem_of_cons in Habs.
  destruct Habs as [Hx|[Hx|[Hx|[Hx|Hnil]]]]; try discriminate Hx.
  by apply elem_of_nil in Hnil.
Qed.

(** *** How many lookups *)

Lemma append_empty_r (k : string) : (k ++ "")%string = k.
Proof.
  induction k as [|ch k IH]; [done|].
  change (String ch (k ++ "")%string = String ch k). by rewrite IH.
Qed.

Lemma lookup_inv_reachable c s : reachable c s → lookup_inv c s.
Proof.
  revert s. apply (reachable_ind c (lookup_inv c)).
  - intros q d H. by apply elem_of_nil in H.
  - intros s s' Hr IH Hstep.
    destruct (claim_inv_reachable c s Hr) as [_ _ HA _ _].
    unfold lookup_inv in *.
    step_cases Hstep; rewrite ?record_spec; simpl; try done.
    + intros q' d'. rewrite elem_of_app, list_elem_of_singleton.
      intros [?|[= -> ->]]; [by eapply IH|].
      apply HA. unfold demand.
      pose proof (wsum_lookup (wants q) _ _ _ H0) as Hw. simpl in Hw.
      rewrite task_is_same in Hw. lia.
    + intros q' d' Hin. destruct (IH q' d' Hin) as [?|?]; [by left|].
      right. by apply elem_of_union_r.
Qed.

(** X13.  The crawler asks the provider only about the seed and about
    strings it has persisted, each at most once: it makes at most one
    lookup more than there are lines in the output file.  For an object
    built by the constructor every query sent to the provider contains
    the keyword, compared without regard to case. *)
Theorem X13_lookups_are_bounded K dir nw md ts tq s :
  let c := SuggestionWorker_init K dir nw md ts tq in
  reachable c s →
  (∀ q d, (q, d) ∈ fetched s → q = Str.lower K ∨ q ∈ sink s) ∧
  (length (fetched s) ≤ S (length (sink s)))%nat ∧
  (∀ q d, (q, d) ∈ fetched s → Str.icontains K q = true).
Proof.
  intros c Hr.
  pose proof (lookup_inv_reachable c s Hr) as Hl.
  destruct (sink_inv_reachable c s Hr) as (_ & _ & Hres).
  destruct (claim_inv_reachable c s Hr) as [_ _ _ _ [Hnd _]].
  destruct (filter_inv_reachable c s Hr) as (_ & _ & Hm).
  assert (∀ q d, (q, d) ∈ fetched s → q = Str.lower K ∨ q ∈ sink s) as Hfrom.
  { intros q d Hin. destruct (Hl q d Hin) as [->|Hq]; [by left|].
    right. rewrite <- Hres in Hq. by apply elem_of_list_to_set in Hq. }
  split_and!; [done| |].
  - rewrite <- (length_fmap fst (fetched s)).
    change (S (length (sink s))) with (length (Str.lower K :: sink s)).
    apply submseteq_length, NoDup_submseteq; [done|].
    intros q Hq. apply list_elem_of_fmap in Hq as ([q' d] & -> & Hin).
    apply elem_of_cons. by apply (Hfrom q' d).
  - intros q d Hin. destruct (Hfrom q d Hin) as [->|Hq].
    + unfold Str.icontains. apply contains_spec.
      exists ""%string, ""%string. simpl.
      by rewrite StrFacts.lower_idem, append_empty_r.
    + apply (Hm q Hq).
Qed.

Lemma X13_witness :
  ∃ s, exec (rust_config 5) busy_round (initial (rust_config 5)) = Some s ∧
       fetched s = [("rust", 0); ("rust lang", 1)] ∧
       (∀ q d, (q, d) ∈ fetched s → q = Str.lower "Rust" ∨ q ∈ sink s) ∧
       (length (fetched s) ≤ S (length (sink s)))%nat ∧
       (∀ q d, (q, d) ∈ fetched s → Str.icontains "Rust" q = true).
Proof.
  destruct (exec (rust_config 5) busy_round (initial (rust_config 5)))
    as [s|] eqn:He; [|by vm_compute in He].
  exists s. split; [done|]. split.
  - vm_compute in He. by injection He as <-.
  - apply (X13_lookups_are_bounded "Rust" "results" 2 5 "20240101_120000" true s).
    eapply reachable_exec; [apply reachable_initial|exact He].
Defined.

(** ** The whole of [run] *)





(** *** The start-up ends in [initial] *)

Lemma pad_0 s : pad 0 s = s.
Proof. destruct s. unfold pad, set_workers. simpl. by rewrite app_nil_r. Qed.

Lemma pad_start_thread k s : pad k (start_thread s) = pad (S k) s.
Proof.
  unfold pad, start_thread, set_workers. simpl. by rewrite <- app_assoc.
Qed.

Lemma pad_seeded c :
  pad (Z.to_nat (num_workers c))
    (if has_tqdm c
     then put (Some (main_keyword c), 0) (prints (banner c) constructed)
     else print LNoTqdm
            (put (Some (main_keyword c), 0) (prints (banner c) constructed)))
  = initial c.
Proof. unfold initial. by destruct (has_tqdm c). Qed.



(** *** The states of the program and the states from [initial] *)

(** A worker does not see the threads that are started after it. *)
Lemma worker_step_pad c i r k s s' :
  worker_step c i r s = Some s' →
  worker_step c i r (pad k s) = Some (pad k s').
Proof.
  intros Hstep.
  assert (∃ w, workers s !! i = Some w) as [w Hi].
  { unfold worker_step in Hstep. destruct (exited s); [done|].
    destruct (workers s !! i) as [w|]; [by exists w|done]. }
  pose proof (lookup_lt_Some _ _ _ Hi) as Hlt.
  assert (workers (pad k s) !! i = Some w) as Hi'.
  { simpl. by rewrite lookup_app_l. }
  unfold worker_step in *. change (exited (pad k s)) with (exited s).
  rewrite Hi'. rewrite Hi in Hstep.
  destruct (exited s); [done|].
  unfold task_done in *.
  change (unfinished (pad k s)) with (unfinished s).
  change (queue (pad k s)) with (queue s).
  change (shutdown_flag (pad k s)) with (shutdown_flag s).
  change (processed_queries (pad k s)) with (processed_queries s).
  change (queue_empty (pad k s)) with (queue_empty s).
  repeat (case_match; simplify_eq/=; try done);
    rewrite ?record_spec; unfold set_worker, pad, set_workers; simpl;
    rewrite ?insert_app_l by done; done.
Qed.

Lemma early_no_worker c p s i r : early c p s → worker_step c i r s = None.
Proof. destruct p; simpl; try done; by intros ->. Qed.

Lemma run_inv_step c x x' : run_inv c x → run_next c x x' → run_inv c x'.
Proof.
  destruct x as [p s]. intros Hinv [l Hl].
  unfold run_inv, run_step in *. simpl in *.
  destruct p as [| | | |j| |].
  - (* the banner *)
    destruct l as [i r|[|]]; simpl in Hl.
    + by rewrite (early_no_worker c PBanner) in Hl.
    + injection Hl as <-. split; [by rewrite Hinv|]. left. by exists PBanner.
    + injection Hl as <-. simpl. by rewrite Hinv.
  - (* the header of the file *)
    destruct l as [i r|[|]]; simpl in Hl.
    + by rewrite (early_no_worker c PHeader) in Hl.
    + injection Hl as <-. split; [by rewrite Hinv|]. left. by exists PHeader.
    + injection Hl as <-. simpl. by rewrite Hinv.
  - (* the seed *)
    destruct l as [i r|[|]]; simpl in Hl.
    + by rewrite (early_no_worker c PSeed) in Hl.
    + injection Hl as <-. split; [by rewrite Hinv|]. left. by exists PSeed.
    + injection Hl as <-. simpl. by rewrite Hinv.
  - (* the progress bar *)
    destruct l as [i r|[|]]; simpl in Hl.
    + by rewrite (early_no_worker c PProgress) in Hl.
    + injection Hl as <-. split; [by rewrite Hinv|]. left. by exists PProgress.
    + injection Hl as <-. simpl. rewrite Hinv, Nat.sub_0_r.
      split; [by destruct (has_tqdm c)|].
      replace (pad _ _) with (initial c); [apply reachable_initial|].
      symmetry. rewrite <- (pad_seeded c). by destruct (has_tqdm c).
  - (* the threads are started *)
    destruct Hinv as [Hm Hinv].
    destruct l as [i r|[|]]; simpl in Hl.
    + apply fmap_Some in Hl as (s1 & Hs1 & ->). simpl.
      destruct (worker_step_main_flag c i r s s1 Hs1) as [Hm1 _].
      split; [congruence|].
      eapply reachable_step; [exact Hinv|].
      exists (Worker i r). by apply worker_step_pad.
    + injection Hl as <-. simpl. split; [unfold exited; by rewrite Hm|].
      right. by eexists.
    + destruct (j <? Z.to_nat (num_workers c))%nat eqn:Hj; simplify_eq/=.
      * apply Nat.ltb_lt in Hj. split; [done|]. rewrite pad_start_thread.
        by replace (S (Z.to_nat (num_workers c) - S j))
          with (Z.to_nat (num_workers c) - j)%nat by lia.
      * apply Nat.ltb_ge in Hj.
        replace (Z.to_nat (num_workers c) - j)%nat with 0%nat in Hinv by lia.
        by rewrite pad_0 in Hinv.
  - (* from the [try] statement on *)
    destruct l as [i r|[|]]; simpl in Hl.
    + apply fmap_Some in Hl as (s1 & Hs1 & ->). simpl.
      eapply reachable_step; [exact Hinv|]. by exists (Worker i r).
    + destruct (in_try s).
      * apply fmap_Some in Hl as (s1 & Hs1 & ->). simpl.
        eapply reachable_step; [exact Hinv|]. by exists (Main true).
      * destruct (exited s) eqn:Hex; simplify_eq/=.
        split; [done|]. right. exists 0%nat. by rewrite pad_0.
    + apply fmap_Some in Hl as (s1 & Hs1 & ->). simpl.
      eapply reachable_step; [exact Hinv|]. by exists (Main false).
  - done.
Qed.

Lemma run_inv_reachable c x : run_reachable c x → run_inv c x.
Proof.
  unfold run_reachable. revert x. apply (rtc_ind_r (λ x, run_inv c x)).
  - done.
  - intros x x' _ Hs IH. by eapply run_inv_step.
Qed.

(** From line 209 on the states of the program are the states reachable
    from [initial]. *)
Lemma guarded_reachable c s :
  run_reachable c (RunState PGuarded s) → reachable c s.
Proof. apply run_inv_reachable. Qed.



(** *** No summary before the end *)



(** *** The queue can always be drained *)




Section potential_facts.
Context (c : config) (provider : string → reply).
Local Open Scope nat_scope.







End potential_facts.








(** *** The end of the program *)








(** The interrupt in the handler: the main thread is in [cleanup] when
    the second interrupt arrives. *)
Example second_interrupt :
  ∃ x, run_exec (rust_config 5) interrupted_twice start = Some x ∧
       phase_of x = PAborted ∧ main_thread (state_of x) = MDrain ∧
       sink (state_of x) = ["rust lang"; "rustacean"] ∧
       last (stdout (state_of x)) = Some LInterrupt.
Proof.
  destruct (run_exec (rust_config 5) interrupted_twice start)
    as [x|] eqn:He; [|by vm_compute in He].
  exists x. split; [done|].
  vm_compute in He. by injection He as <-.
Qed.


